(** * app.py: the Colab coding-assistant chat page

    A shallow embedding of [src/app.py], the Streamlit script that keeps a
    chat transcript in [st.session_state.messages], renders it into the
    request format of the Gemini client, streams the reply into a
    placeholder and stores the reply (or an error message) as the next
    assistant turn.

    Streamlit re-executes the whole script on every interaction.  One
    execution is the computation [app]; it runs in a small monad threading
    the session state and a log of the calls made to Streamlit and to the
    Gemini client, with the two ways a Python script leaves its straight
    line: a raised exception and [st.stop()]. *)

From stdpp Require Import base strings list gmap.

Open Scope string_scope.
Open Scope list_scope.

(** ** Python values used by the script *)

Module Py.

(** The exception classes the script can meet.  All of them derive from
    [Exception], the class the handlers of the script catch; [APIError] is
    [google.genai.errors.APIError], [OtherException] stands for any class
    that is none of the three named ones (a network failure, say). *)
Inductive exc_class := APIError | KeyError | AttributeError | OtherException.

Record exn := Exn { exc_type : exc_class; exc_str : string }.

(** [isinstance(e, errors.APIError)] *)
Definition is_APIError (e : exn) : bool :=
  match exc_type e with APIError => true | _ => false end.

(** Truth value of an [Optional[str]]: [None] and [""] are falsy. *)
Definition truthy (o : option string) : bool :=
  match o with
  | Some s => negb (String.eqb s "")
  | None => false
  end.

(** [k in d] for a dict with string keys. *)
Definition contains {V} (k : string) (d : gmap string V) : bool :=
  bool_decide (is_Some (d !! k)).

(** [d[k]]: raises [KeyError] on a missing key. *)
Definition getitem {V} (d : gmap string V) (k : string) : exn + V :=
  match d !! k with
  | Some v => inr v
  | None => inl (Exn KeyError k)
  end.

(** [os.getenv(k)] *)
Definition getenv (environ : gmap string string) (k : string) : option string :=
  environ !! k.

End Py.
Import Py.

(** ** Data *)

(** One entry of [st.session_state.messages]: [{"role": .., "content": ..}]. *)
Record message := Message { role : string; content : string }.

(** One entry of the request history:
    [{"role": .., "parts": [{"text": ..}]}]. *)
Record part := Part { text : string }.
Record Content := MkContent { wire_role : string; parts : list part }.

(** The keyword arguments of [client.models.generate_content_stream]. *)
Record request := Request {
  model : string;
  contents : list Content;
  config_system_instruction : string
}.

(** What iterating the response stream does: it yields a chunk, whose
    [.text] is a string or [None], it ends, or it raises.  A call that
    fails before the first chunk is [StreamRaise] at the head. *)
Inductive stream :=
| StreamEnd
| StreamChunk (chunk_text : option string) (rest : stream)
| StreamRaise (e : exn).

Record Client := MkClient { generate_content_stream : request → stream }.

(** What one execution of the script reads from outside: the process
    environment, the behaviour of the [genai.Client] constructor, and the
    value returned by [st.chat_input]. *)
Record host := Host {
  environ : gmap string string;
  genai_Client : string → exn + Client;
  chat_input : option string
}.

(** Calls made to Streamlit and to the client, in program order. *)
Inductive event :=
| st_error (body : string)
| st_stop
| st_set_page_config (page_title layout : string)
| st_title (body : string)
| st_caption (body : string)
| st_divider
| st_chat_message (name : string)
| st_markdown (body : string)
| st_chat_input (placeholder : string)
| st_empty
| message_placeholder_markdown (body : string)
| models_generate_content_stream (req : request)
| st_sidebar_header (body : string)
| st_sidebar_markdown (body : string).

(** ** The script monad *)

Record state := State {
  session_state : gmap string (list message);
  log : list event
}.

Inductive outcome (A : Type) :=
| Ret (a : A)
| Raised (e : exn)
| Stopped.
Arguments Ret {A} a.
Arguments Raised {A} e.
Arguments Stopped {A}.

Definition M (A : Type) : Type := state → outcome A * state.

#[global] Instance M_ret : MRet M := λ A a s, (Ret a, s).
#[global] Instance M_bind : MBind M := λ A B f m s,
  match m s with
  | (Ret a, s') => f a s'
  | (Raised e, s') => (Raised e, s')
  | (Stopped, s') => (Stopped, s')
  end.

Definition raise {A} (e : exn) : M A := λ s, (Raised e, s).

Definition lift {A} (r : exn + A) : M A :=
  match r with inr a => mret a | inl e => raise e end.

(** [try: body  except Exception as e: handler e].  [st.stop()] is not an
    [Exception] and passes through. *)
Definition try_except {A} (body : M A) (handler : exn → M A) : M A := λ s,
  match body s with
  | (Raised e, s') => handler e s'
  | r => r
  end.

Definition emit (ev : event) : M unit := λ s,
  (Ret tt, State (session_state s) (log s ++ [ev])).

(** [st.stop()]: logged, then the script halts. *)
Definition stop {A} : M A := λ s,
  (Stopped, State (session_state s) (log s ++ [st_stop])).

Definition get_session_state : M (gmap string (list message)) := λ s,
  (Ret (session_state s), s).

(** [st.session_state.messages = l] *)
Definition set_messages (l : list message) : M unit := λ s,
  (Ret tt, State (<["messages" := l]> (session_state s)) (log s)).

(** [st.session_state.messages]: [AttributeError] when the key is unset. *)
Definition get_messages : M (list message) := λ s,
  match session_state s !! "messages" with
  | Some l => (Ret l, s)
  | None => (Raised (Exn AttributeError "messages"), s)
  end.

(** [st.session_state.messages.append(m)] *)
Definition messages_append (m : message) : M unit :=
  l ← get_messages; set_messages (l ++ [m]).

(** ** The script *)

Definition SYSTEM_INSTRUCTION : string :=
  "당신은 구글 코랩(Colab) 환경에 최적화된 전문 코딩 비서입니다. " +:+
  "사용자는 파이썬 초보자부터 숙련자까지 다양합니다. " +:+
  "사용자의 질문에 대해 명확하고 간결하며 실행 가능한 파이썬 코드를 제공해야 합니다. " +:+
  "사용자가 파이썬 코드를 제시하면, 해당 코드의 오류(SyntaxError, NameError, TypeError 등)를 진단하고, 오류가 난 이유와 함께 정확하고 친절한 해결책을 제시하여 코드를 고쳐주세요. 디버깅이 주요 업무 중 하나입니다. " +:+
  "코드 설명은 주석과 함께 제공하며, 모든 코드는 구글 코랩 환경에서 바로 실행 가능하도록 작성해야 합니다. " +:+
  "사용자가 요청하지 않는 한, 불필요한 서론이나 결론 없이 핵심적인 코드와 설명을 제공하세요.".

Definition MODEL_NAME : string := "gemini-2.5-flash".

Definition welcome : message :=
  Message "assistant"
    "안녕하세요! 저는 코랩 환경에 최적화된 코딩 비서 제미나이입니다. 어떤 파이썬 코드가 필요하거나, **오류가 난 코드를 보여주시면 바로 고쳐드릴게요!**".

Definition role_map : gmap string string :=
  {[ "user" := "user"; "assistant" := "model" ]}.

Definition cursor : string := "▌".

Definition api_error_prefix : string := "API 호출 중 오류가 발생했습니다: ".
Definition unexpected_error_prefix : string := "예상치 못한 오류가 발생했습니다: ".

(** Section 1 of the script (lines 20-33): read the key, build the client.
    Either failure is reported with [st.error] and ends in [st.stop()]. *)
Definition startup (h : host) : M Client :=
  let api_key := getenv (environ h) "GEMINI_API_KEY" in
  (if negb (truthy api_key) then
     emit (st_error "❌ 오류: 'GEMINI_API_KEY' 환경 변수 또는 Streamlit Secret이 설정되지 않았습니다.");;
     emit (st_error "👉 사이드바의 '실행 방법' 섹션을 참고하여 API 키를 설정해주세요.");;
     stop
   else mret tt);;
  try_except
    (lift (genai_Client h (default "" api_key)))
    (λ e,
       emit (st_error ("⚠️ Gemini 클라이언트 초기화 실패: " +:+ exc_str e));;
       stop).

(** Lines 39-42. *)
Definition page_header : M unit :=
  emit (st_set_page_config "코랩 코딩 비서 챗봇" "centered");;
  emit (st_title "💻 구글 코랩 코딩 비서: 제미나이");;
  emit (st_caption "파이썬 코드 작성, 설명, **오류 수정**을 도와주는 전문 AI 비서입니다.");;
  emit st_divider.

(** Section 2 (lines 45-49): seed the transcript once per session. *)
Definition init_messages : M unit :=
  ss ← get_session_state;
  if negb (contains "messages" ss) then set_messages [welcome] else mret tt.

(** Section 3 (lines 52-54): replay the transcript. *)
Fixpoint display_loop (msgs : list message) : M unit :=
  match msgs with
  | [] => mret tt
  | message :: rest =>
      emit (st_chat_message (role message));;
      emit (st_markdown (content message));;
      display_loop rest
  end.

Definition display_messages : M unit :=
  msgs ← get_messages; display_loop msgs.

(** Section 4-2 (lines 64-70): the loop body appends to the local list
    [history] for every message whose role is a key of [role_map]. *)
Fixpoint history_loop (msgs : list message) (history : list Content)
  : M (list Content) :=
  match msgs with
  | [] => mret history
  | message :: rest =>
      if contains (role message) role_map then
        r ← lift (getitem role_map (role message));
        history_loop rest
          (history ++ [MkContent r [Part (content message)]])
      else history_loop rest history
  end.

Definition render : M (list Content) :=
  msgs ← get_messages; history_loop msgs [].

(** Lines 85-88: consume the stream, growing [full_response] and
    re-displaying it with the cursor after every chunk that has text. *)
Fixpoint consume (response_stream : stream) (full_response : string)
  : M string :=
  match response_stream with
  | StreamEnd => mret full_response
  | StreamRaise e => raise e
  | StreamChunk chunk_text rest =>
      if truthy chunk_text then
        let full_response := full_response +:+ default "" chunk_text in
        emit (message_placeholder_markdown (full_response +:+ cursor));;
        consume rest full_response
      else consume rest full_response
  end.

(** Section 4-3 (lines 73-99): returns the final value of [full_response]. *)
Definition respond (client : Client) (history : list Content) : M string :=
  emit (st_chat_message "assistant");;
  emit st_empty;;
  let full_response := "" in
  try_except
    (let req := Request MODEL_NAME history SYSTEM_INSTRUCTION in
     emit (models_generate_content_stream req);;
     full_response ← consume (generate_content_stream client req) full_response;
     emit (message_placeholder_markdown full_response);;
     mret full_response)
    (λ e,
       if is_APIError e then
         let error_message := api_error_prefix +:+ exc_str e in
         emit (st_error error_message);;
         mret error_message
       else
         let error_message := unexpected_error_prefix +:+ exc_str e in
         emit (st_error error_message);;
         mret error_message).

(** Section 4 (lines 57-102). *)
Definition handle_input (h : host) (client : Client) : M unit :=
  emit (st_chat_input "파이썬 코드를 요청하거나 오류를 물어보세요...");;
  if truthy (chat_input h) then
    let prompt := default "" (chat_input h) in
    messages_append (Message "user" prompt);;
    emit (st_chat_message "user");;
    emit (st_markdown prompt);;
    history ← render;
    full_response ← respond client history;
    messages_append (Message "assistant" full_response)
  else mret tt.

(** Section 5 (lines 105-121). *)
Definition sidebar : M unit :=
  emit (st_sidebar_header "실행 및 배포 방법");;
  emit (st_sidebar_markdown "
### 1. 라이브러리 설치
```bash
pip install streamlit google-genai
```

### 2. API 키 설정 (중요!)
Streamlit Cloud의 'Secrets' 설정에 **`GEMINI_API_KEY`**와 여러분의 API 키를 입력해주세요.

### 3. 앱 실행
```bash
streamlit run app.py
```
").

(** One execution of the script. *)
Definition app (h : host) : M unit :=
  client ← startup h;
  page_header;;
  init_messages;;
  display_messages;;
  handle_input h client;;
  sidebar.

(** A script run starts with an empty log and the session state left by
    the previous run. *)
Definition run (h : host) (ss : gmap string (list message))
  : outcome unit * state :=
  app h (State ss []).

Definition run_state (h : host) (ss : gmap string (list message))
  : gmap string (list message) :=
  session_state (run h ss).2.

Definition run_log (h : host) (ss : gmap string (list message)) : list event :=
  log (run h ss).2.

(** A browser session: the script runs once per element of [hs], each run
    starting from the session state the previous one left. *)
Fixpoint session (hs : list host) (ss : gmap string (list message))
  : gmap string (list message) :=
  match hs with
  | [] => ss
  | h :: rest => session rest (run_state h ss)
  end.

Fixpoint session_log (hs : list host) (ss : gmap string (list message))
  : list event :=
  match hs with
  | [] => []
  | h :: rest => run_log h ss ++ session_log rest (run_state h ss)
  end.

(** The transcript of a session state. *)
Definition transcript (ss : gmap string (list message)) : option (list message) :=
  ss !! "messages".

(** Observations on a log. *)
Definition network_calls (l : list event) : list request :=
  omap (λ ev, match ev with models_generate_content_stream r => Some r | _ => None end) l.

(** The bodies passed to [message_placeholder.markdown], in order; what the
    placeholder shows in the end is the last of them. *)
Definition placeholder_bodies (l : list event) : list string :=
  omap (λ ev, match ev with message_placeholder_markdown b => Some b | _ => None end) l.

Definition displayed (l : list event) : option string :=
  last (placeholder_bodies l).

(** ** What the render step computes *)

(** A role the request format knows. *)
Definition recognised (m : message) : Prop :=
  role m = "user" ∨ role m = "assistant".

#[global] Instance recognised_dec m : Decision (recognised m).
Proof. unfold recognised. apply _. Defined.

(** The rendering of the spec: [user] becomes "user", [assistant] becomes
    "model", and the text is wrapped in a one-element list of parts. *)
Definition wire_of (m : message) : Content :=
  MkContent (if decide (role m = "user") then "user" else "model")
            [Part (content m)].

Definition rendered (msgs : list message) : list Content :=
  wire_of <$> filter recognised msgs.

(** ** What the stream loop computes *)

(** Chunks followed by how the stream ends. *)
Definition stream_of (chunks : list (option string)) (tail : stream) : stream :=
  foldr StreamChunk tail chunks.

Definition fragments (l : list string) : stream :=
  foldr (λ t s, StreamChunk (Some t) s) StreamEnd l.

(** The value of [full_response] when the loop over the stream is left,
    by exhaustion or by an exception. *)
Fixpoint accumulated (st : stream) (acc : string) : string :=
  match st with
  | StreamChunk t rest =>
      accumulated rest (if truthy t then acc +:+ default "" t else acc)
  | _ => acc
  end.

(** The placeholder updates the loop makes. *)
Fixpoint stream_events (st : stream) (acc : string) : list event :=
  match st with
  | StreamChunk t rest =>
      if truthy t then
        message_placeholder_markdown ((acc +:+ default "" t) +:+ cursor)
          :: stream_events rest (acc +:+ default "" t)
      else stream_events rest acc
  | _ => []
  end.

(** The exception iterating the stream ends with, if any. *)
Fixpoint stream_error (st : stream) : option exn :=
  match st with
  | StreamEnd => None
  | StreamChunk _ rest => stream_error rest
  | StreamRaise e => Some e
  end.

(** The string built by the two [except] clauses (lines 93 and 97). *)
Definition error_message (e : exn) : string :=
  (if is_APIError e then api_error_prefix else unexpected_error_prefix)
    +:+ exc_str e.

(** The final [full_response] for a stream, and the call that shows it. *)
Definition reply (st : stream) : string :=
  match stream_error st with
  | Some e => error_message e
  | None => accumulated st ""
  end.

Definition closing_event (st : stream) : event :=
  match stream_error st with
  | Some e => st_error (error_message e)
  | None => message_placeholder_markdown (accumulated st "")
  end.

Definition the_request (history : list Content) : request :=
  Request MODEL_NAME history SYSTEM_INSTRUCTION.

(** [needle] occurs in [s]. *)
Definition mentions (needle s : string) : Prop :=
  ∃ pre post, s = pre +:+ needle +:+ post.

(** The word both error messages share ("error"). *)
Definition error_indicator : string := "오류".

(** ** What a run logs *)

(** The key is set and non-empty, and the client constructor returns [c]. *)
Definition starts (h : host) (c : Client) : Prop :=
  ∃ k, environ h !! "GEMINI_API_KEY" = Some k ∧ k ≠ "" ∧ genai_Client h k = inr c.

Definition no_key_events : list event :=
  [st_error "❌ 오류: 'GEMINI_API_KEY' 환경 변수 또는 Streamlit Secret이 설정되지 않았습니다.";
   st_error "👉 사이드바의 '실행 방법' 섹션을 참고하여 API 키를 설정해주세요.";
   st_stop].

Definition header_events : list event :=
  [st_set_page_config "코랩 코딩 비서 챗봇" "centered";
   st_title "💻 구글 코랩 코딩 비서: 제미나이";
   st_caption "파이썬 코드 작성, 설명, **오류 수정**을 도와주는 전문 AI 비서입니다.";
   st_divider].

Definition sidebar_events : list event := log (sidebar (State ∅ [])).2.

(** The session state after section 2 of the script. *)
Definition seeded (ss : gmap string (list message)) : gmap string (list message) :=
  if contains "messages" ss then ss else <["messages" := [welcome]]> ss.

Definition display_events (msgs : list message) : list event :=
  msgs ≫= λ message, [st_chat_message (role message); st_markdown (content message)].

Definition chat_input_event : event :=
  st_chat_input "파이썬 코드를 요청하거나 오류를 물어보세요...".

(** What a submission of [p] logs, given the transcript [l1] that already
    ends with the user turn and the stream [st] the client answers with. *)
Definition submit_events (p : string) (l1 : list message) (st : stream)
  : list event :=
  [chat_input_event; st_chat_message "user"; st_markdown p;
   st_chat_message "assistant"; st_empty;
   models_generate_content_stream (the_request (rendered l1))]
  ++ stream_events st "" ++ [closing_event st].

(** ** Sessions *)

(** The runs of a session in which the user submitted a prompt. *)
Definition submissions (hs : list host) : nat :=
  length (filter (λ h, truthy (chat_input h) = true) hs).

(** The roles appended by [n] submissions. *)
Definition exchange_roles (n : nat) : list string :=
  mjoin (replicate n ["user"; "assistant"]).

(** ** Concrete hosts and transcripts *)

Definition ok_host (reply : stream) (input : option string) : host :=
  Host {[ "GEMINI_API_KEY" := "k" ]} (λ _, inr (MkClient (λ _, reply))) input.

Definition hello_host : host :=
  ok_host (fragments ["Hel"; "lo"; " world"]) (Some "hi").

Definition failing_host : host :=
  ok_host (stream_of [Some "Hel"; Some "lo"] (StreamRaise (Exn APIError "429 quota")))
          (Some "hi").

Definition silent_host : host :=
  ok_host (stream_of [None; Some ""] StreamEnd) (Some "hi").

Definition keyless_host (input : option string) : host :=
  Host ∅ (λ _, inr (MkClient (λ _, fragments ["never sent"]))) input.

Definition three_runs : list host :=
  [ok_host StreamEnd None;
   ok_host (fragments ["Hel"; "lo"; " world"]) (Some "hi");
   ok_host (fragments ["x = 1"]) (Some "more")].

Definition two_turns : list message :=
  [Message "assistant" "hello"; Message "user" "print(1"].

Definition with_system_turn : list message :=
  [Message "assistant" "hello"; Message "system" "be terse"; Message "user" "hi"].

(** [starts] at a concrete host, by evaluating the lookup of the key. *)
Ltac starts_with k :=
  exists k; split; [vm_compute; reflexivity|split; [discriminate|reflexivity]].

(** ** Further observations on runs and sessions *)

(** What a run logs when the client constructor raises [e] (lines 31-33). *)
Definition client_failure_events (e : exn) : list event :=
  [st_error ("⚠️ Gemini 클라이언트 초기화 실패: " +:+ exc_str e); st_stop].

(** The texts [ts] put one after the other, as repeated [+=] builds them. *)
Definition joined (ts : list string) : string :=
  foldr String.append "" ts.

(** What the placeholder is given while the fragments [ts] arrive: after
    fragment [k] the text of the first [k] fragments, then the cursor. *)
Definition progress_bodies (ts : list string) : list string :=
  (λ k, joined (take (S k) ts) +:+ cursor) <$> seq 0 (length ts).



(** The roles of a transcript alternate after the welcome turn. *)
Definition alternates (ss : gmap string (list message)) : Prop :=
  ∀ l, transcript ss = Some l → ∃ n, role <$> l = "assistant" :: exchange_roles n.

Definition two_failures_then_ok : list host :=
  [ok_host (StreamRaise (Exn OtherException "timed out")) (Some "first");
   Host ∅ (λ _, inl (Exn OtherException "unused")) (Some "lost");
   ok_host (fragments ["a"; "b"]) (Some "second")].

Definition broken_client_host : host :=
  Host {[ "GEMINI_API_KEY" := "k" ]} (λ _, inl (Exn OtherException "bad key")) (Some "hi").

(** ** The script as a tree of calls

    The monad [M] maps a state to the state at the end of the computation;
    what happens in between is not visible in it.  The same script is given
    here a second time as a tree whose nodes are the calls it makes ([st.*]
    and client calls), its reads of [st.session_state] and its assignments
    to [st.session_state.messages].  Running the tree records every value
    the session state takes, and it lets Streamlit end the run inside an
    [st.*] call: a stop or rerun request surfaces there as an exception that
    is not an [Exception], so no handler of the script catches it. *)

Module Tree.

Inductive prog (A : Type) : Type :=
| Return (a : A)
| Throw (e : exn)
| Halt
| Call (ev : event) (k : prog A)
| ReadState (k : gmap string (list message) → prog A)
| Assign (l : list message) (k : prog A).
Arguments Return {A} a.
Arguments Throw {A} e.
Arguments Halt {A}.
Arguments Call {A} ev k.
Arguments ReadState {A} k.
Arguments Assign {A} l k.

Fixpoint bind {A B} (p : prog A) (f : A → prog B) : prog B :=
  match p with
  | Return a => f a
  | Throw e => Throw e
  | Halt => Halt
  | Call ev k => Call ev (bind k f)
  | ReadState k => ReadState (λ ss, bind (k ss) f)
  | Assign l k => Assign l (bind k f)
  end.

#[global] Instance prog_ret : MRet prog := λ A a, Return a.
#[global] Instance prog_bind : MBind prog := λ A B f p, bind p f.

Definition raise {A} (e : exn) : prog A := Throw e.

Definition lift {A} (r : exn + A) : prog A :=
  match r with inr a => mret a | inl e => raise e end.

(** [try: body  except Exception as e: handler e] *)
Fixpoint try_except {A} (body : prog A) (handler : exn → prog A) : prog A :=
  match body with
  | Return a => Return a
  | Throw e => handler e
  | Halt => Halt
  | Call ev k => Call ev (try_except k handler)
  | ReadState k => ReadState (λ ss, try_except (k ss) handler)
  | Assign l k => Assign l (try_except k handler)
  end.

Definition emit (ev : event) : prog unit := Call ev (Return tt).

Definition stop {A} : prog A := Call st_stop Halt.

Definition get_session_state : prog (gmap string (list message)) :=
  ReadState Return.

(** [st.session_state.messages = l] *)
Definition set_messages (l : list message) : prog unit := Assign l (Return tt).

(** [st.session_state.messages] *)
Definition get_messages : prog (list message) :=
  ReadState (λ ss,
    match ss !! "messages" with
    | Some l => Return l
    | None => Throw (Exn AttributeError "messages")
    end).

(** [st.session_state.messages.append(m)] *)
Definition messages_append (m : message) : prog unit :=
  l ← get_messages; set_messages (l ++ [m]).

(** Lines 20-33. *)
Definition startup (h : host) : prog Client :=
  let api_key := getenv (environ h) "GEMINI_API_KEY" in
  (if negb (truthy api_key) then
     emit (st_error "❌ 오류: 'GEMINI_API_KEY' 환경 변수 또는 Streamlit Secret이 설정되지 않았습니다.");;
     emit (st_error "👉 사이드바의 '실행 방법' 섹션을 참고하여 API 키를 설정해주세요.");;
     stop
   else mret tt);;
  try_except
    (lift (genai_Client h (default "" api_key)))
    (λ e,
       emit (st_error ("⚠️ Gemini 클라이언트 초기화 실패: " +:+ exc_str e));;
       stop).

(** Lines 39-42. *)
Definition page_header : prog unit :=
  emit (st_set_page_config "코랩 코딩 비서 챗봇" "centered");;
  emit (st_title "💻 구글 코랩 코딩 비서: 제미나이");;
  emit (st_caption "파이썬 코드 작성, 설명, **오류 수정**을 도와주는 전문 AI 비서입니다.");;
  emit st_divider.

(** Lines 45-49. *)
Definition init_messages : prog unit :=
  ss ← get_session_state;
  if negb (contains "messages" ss) then set_messages [welcome] else mret tt.

(** Lines 52-54. *)
Fixpoint display_loop (msgs : list message) : prog unit :=
  match msgs with
  | [] => mret tt
  | message :: rest =>
      emit (st_chat_message (role message));;
      emit (st_markdown (content message));;
      display_loop rest
  end.

Definition display_messages : prog unit :=
  msgs ← get_messages; display_loop msgs.

(** Lines 64-70. *)
Fixpoint history_loop (msgs : list message) (history : list Content)
  : prog (list Content) :=
  match msgs with
  | [] => mret history
  | message :: rest =>
      if contains (role message) role_map then
        r ← lift (getitem role_map (role message));
        history_loop rest
          (history ++ [MkContent r [Part (content message)]])
      else history_loop rest history
  end.

Definition render : prog (list Content) :=
  msgs ← get_messages; history_loop msgs [].

(** Lines 85-88. *)
Fixpoint consume (response_stream : stream) (full_response : string)
  : prog string :=
  match response_stream with
  | StreamEnd => mret full_response
  | StreamRaise e => raise e
  | StreamChunk chunk_text rest =>
      if truthy chunk_text then
        let full_response := full_response +:+ default "" chunk_text in
        emit (message_placeholder_markdown (full_response +:+ cursor));;
        consume rest full_response
      else consume rest full_response
  end.

(** Lines 73-99. *)
Definition respond (client : Client) (history : list Content) : prog string :=
  emit (st_chat_message "assistant");;
  emit st_empty;;
  let full_response := "" in
  try_except
    (let req := Request MODEL_NAME history SYSTEM_INSTRUCTION in
     emit (models_generate_content_stream req);;
     full_response ← consume (generate_content_stream client req) full_response;
     emit (message_placeholder_markdown full_response);;
     mret full_response)
    (λ e,
       if is_APIError e then
         let error_message := api_error_prefix +:+ exc_str e in
         emit (st_error error_message);;
         mret error_message
       else
         let error_message := unexpected_error_prefix +:+ exc_str e in
         emit (st_error error_message);;
         mret error_message).

(** Lines 57-102. *)
Definition handle_input (h : host) (client : Client) : prog unit :=
  emit (st_chat_input "파이썬 코드를 요청하거나 오류를 물어보세요...");;
  if truthy (chat_input h) then
    let prompt := default "" (chat_input h) in
    messages_append (Message "user" prompt);;
    emit (st_chat_message "user");;
    emit (st_markdown prompt);;
    history ← render;
    full_response ← respond client history;
    messages_append (Message "assistant" full_response)
  else mret tt.

(** Lines 105-121. *)
Definition sidebar : prog unit :=
  emit (st_sidebar_header "실행 및 배포 방법");;
  emit (st_sidebar_markdown "
### 1. 라이브러리 설치
```bash
pip install streamlit google-genai
```

### 2. API 키 설정 (중요!)
Streamlit Cloud의 'Secrets' 설정에 **`GEMINI_API_KEY`**와 여러분의 API 키를 입력해주세요.

### 3. 앱 실행
```bash
streamlit run app.py
```
").

Definition app (h : host) : prog unit :=
  client ← startup h;
  page_header;;
  init_messages;;
  display_messages;;
  handle_input h client;;
  sidebar.

(** How a run ends: the script reaches its end, an exception escapes it,
    [st.stop()] halts it, or Streamlit ends it inside an [st.*] call. *)
Inductive ending (A : Type) :=
| Finished (a : A)
| Uncaught (e : exn)
| Halted
| Interrupted.
Arguments Finished {A} a.
Arguments Uncaught {A} e.
Arguments Halted {A}.
Arguments Interrupted {A}.

(** The state of a run together with every value the session state has
    been assigned since the run began, oldest first. *)
Record world := World {
  now : state;
  visited : list (gmap string (list message))
}.

(** Calls that go through Streamlit; the request to the client does not. *)
Definition is_streamlit (ev : event) : bool :=
  match ev with
  | models_generate_content_stream _ => false
  | _ => true
  end.

(** [irq] tells, from the calls the run has made so far, whether a stop or
    rerun request is pending; the next [st.*] call then ends the run
    before it takes effect. *)
Fixpoint exec {A} (irq : list event → bool) (p : prog A) (w : world)
  : ending A * world :=
  match p with
  | Return a => (Finished a, w)
  | Throw e => (Uncaught e, w)
  | Halt => (Halted, w)
  | Call ev k =>
      if is_streamlit ev && irq (log (now w)) then (Interrupted, w)
      else exec irq k
             (World (State (session_state (now w)) (log (now w) ++ [ev]))
                    (visited w))
  | ReadState k => exec irq (k (session_state (now w))) w
  | Assign l k =>
      let ss := <["messages" := l]> (session_state (now w)) in
      exec irq k (World (State ss (log (now w))) (visited w ++ [ss]))
  end.

(** No request ever pending. *)
Definition never : list event → bool := λ _, false.

(** One run of the script. *)
Definition run (h : host) (irq : list event → bool)
    (ss : gmap string (list message)) : ending unit * world :=
  exec irq (app h) (World (State ss []) []).

(** The values the session state is assigned over a session, run after
    run, each run starting from the session state the previous one left. *)
Fixpoint session_writes (rs : list (host * (list event → bool)))
    (ss : gmap string (list message)) : list (gmap string (list message)) :=
  match rs with
  | [] => []
  | (h, irq) :: rest =>
      let w := (run h irq ss).2 in
      visited w ++ session_writes rest (session_state (now w))
  end.

(** Every value of the session state over a session, the initial one
    first. *)
Definition session_visits (rs : list (host * (list event → bool)))
    (ss : gmap string (list message)) : list (gmap string (list message)) :=
  ss :: session_writes rs ss.

End Tree.

(** One assignment to the session state appends to the transcript: it
    creates the transcript as the welcome turn alone, or it adds one turn,
    of role "user" or "assistant", after the turns already there. *)
Definition appends (s1 s2 : gmap string (list message)) : Prop :=
  match transcript s1 with
  | None => transcript s2 = Some [welcome]
  | Some l =>
      ∃ m, (role m = "user" ∨ role m = "assistant") ∧
           transcript s2 = Some (l ++ [m])
  end.

(** The turns of [s1] are the first turns of [s2], unchanged. *)
Definition extends (s1 s2 : gmap string (list message)) : Prop :=
  ∀ l, transcript s1 = Some l → ∃ ext, transcript s2 = Some (l ++ ext).

(** Each state of [l] follows from the one before it, [s] first, by
    [appends]. *)
Fixpoint chain (s : gmap string (list message))
    (l : list (gmap string (list message))) : Prop :=
  match l with
  | [] => True
  | x :: rest => appends s x ∧ chain x rest
  end.

(** The transcript, if there is one, starts with the welcome turn and
    holds only roles the request format knows. *)
Definition well_formed (s : gmap string (list message)) : Prop :=
  ∀ l, transcript s = Some l →
    (∃ rest, l = welcome :: rest) ∧
    Forall (λ m, role m = "user" ∨ role m = "assistant") l.

(** The outcome in [M] that corresponds to an ending of the tree. *)
Definition ending_of {A} (o : outcome A) : Tree.ending A :=
  match o with
  | Ret a => Tree.Finished a
  | Raised e => Tree.Uncaught e
  | Stopped => Tree.Halted
  end.

(** The tree [p] and the computation [m] end alike when nothing
    interrupts the run. *)
Definition agrees {A} (p : Tree.prog A) (m : M A) : Prop :=
  ∀ w,
    (Tree.exec Tree.never p w).1 = ending_of (m (Tree.now w)).1 ∧
    Tree.now (Tree.exec Tree.never p w).2 = (m (Tree.now w)).2.

(** [p] assigns nothing to the session state. *)
Definition keeps {A} (p : Tree.prog A) : Prop :=
  ∀ irq w,
    Tree.visited (Tree.exec irq p w).2 = Tree.visited w ∧
    session_state (Tree.now (Tree.exec irq p w).2) = session_state (Tree.now w).

(** Every assignment [p] makes appends to the transcript. *)
Definition grows {A} (p : Tree.prog A) : Prop :=
  ∀ irq w,
    ∃ new,
      Tree.visited (Tree.exec irq p w).2 = Tree.visited w ++ new ∧
      chain (session_state (Tree.now w)) new ∧
      session_state (Tree.now (Tree.exec irq p w).2)
        = default (session_state (Tree.now w)) (last new).

(** A run interrupted while the reply is streaming, then a run to the end. *)
Definition interrupted_then_ok : list (host * (list event → bool)) :=
  [(ok_host (fragments ["Hel"; "lo"]) (Some "first"), λ l, bool_decide (length l = 12));
   (ok_host (fragments ["a"; "b"]) (Some "second"), Tree.never)].

(** * Proofs *)

(** ** Sanity checks on concrete runs *)

Example run_first_load :
  transcript (run_state (ok_host StreamEnd None) ∅) = Some [welcome].
Proof. vm_compute. reflexivity. Qed.

Example run_hello :
  transcript (run_state (ok_host (fragments ["Hel"; "lo"; " world"]) (Some "hi")) ∅)
  = Some [welcome; Message "user" "hi"; Message "assistant" "Hello world"].
Proof. vm_compute. reflexivity. Qed.

(** ** Stepping through the monad *)

Lemma bind_ret {A B} (m : M A) (f : A → M B) s a s' :
  m s = (Ret a, s') → (m ≫= f) s = f a s'.
Proof. intros E. unfold mbind, M_bind. by rewrite E. Qed.

Lemma bind_raised {A B} (m : M A) (f : A → M B) s e s' :
  m s = (Raised e, s') → (m ≫= f) s = (Raised e, s').
Proof. intros E. unfold mbind, M_bind. by rewrite E. Qed.

Lemma bind_stopped {A B} (m : M A) (f : A → M B) s s' :
  m s = (Stopped, s') → (m ≫= f) s = (Stopped, s').
Proof. intros E. unfold mbind, M_bind. by rewrite E. Qed.

Lemma bind_emit {B} ev (f : unit → M B) s :
  (emit ev ≫= f) s = f tt (State (session_state s) (log s ++ [ev])).
Proof. reflexivity. Qed.

(** ** The role table *)

Lemma role_map_lookup (r : string) :
  role_map !! r =
    if decide (r = "user") then Some "user"
    else if decide (r = "assistant") then Some "model"
    else None.
Proof.
  unfold role_map. rewrite lookup_insert.
  destruct (decide ("user" = r)) as [<-|Hu].
  - by rewrite decide_True.
  - rewrite decide_False by congruence.
    rewrite lookup_singleton.
    destruct (decide ("assistant" = r)) as [<-|Ha].
    + by rewrite decide_True.
    + by rewrite decide_False by congruence.
Qed.

Lemma contains_role_map m :
  contains (role m) role_map = bool_decide (recognised m).
Proof.
  unfold contains, recognised. rewrite role_map_lookup.
  apply bool_decide_ext.
  destruct (decide (role m = "user")) as [Hu|Hu].
  { split; [by left | by eexists]. }
  destruct (decide (role m = "assistant")) as [Ha|Ha].
  { split; [by right | by eexists]. }
  split; [by intros [? ?] | by intros [?|?]].
Qed.

Lemma history_loop_spec msgs history s :
  history_loop msgs history s = (Ret (history ++ rendered msgs), s).
Proof.
  revert history. induction msgs as [|m rest IH]; intros history; simpl.
  - unfold rendered. simpl. by rewrite app_nil_r.
  - rewrite contains_role_map. unfold rendered.
    rewrite filter_cons. destruct (decide (recognised m)) as [Hm|Hm].
    + rewrite bool_decide_eq_true_2 by done.
      unfold getitem. rewrite role_map_lookup.
      assert (E : (if decide (role m = "user") then Some "user"
                   else if decide (role m = "assistant") then Some "model"
                   else None)
                  = Some (if decide (role m = "user") then "user" else "model")).
      { destruct Hm as [Hm|Hm]; rewrite Hm; reflexivity. }
      rewrite E. simpl. unfold mbind, M_bind, mret, M_ret.
      rewrite IH. rewrite <- app_assoc. reflexivity.
    + rewrite bool_decide_eq_false_2 by done. apply IH.
Qed.

Lemma render_spec s l :
  session_state s !! "messages" = Some l →
  render s = (Ret (rendered l), s).
Proof.
  intros E. unfold render, get_messages, mbind, M_bind. rewrite E.
  apply history_loop_spec.
Qed.

Lemma rendered_app l1 l2 : rendered (l1 ++ l2) = rendered l1 ++ rendered l2.
Proof. unfold rendered. by rewrite filter_app, fmap_app. Qed.

Lemma rendered_all l :
  Forall recognised l → rendered l = wire_of <$> l.
Proof.
  intros H. unfold rendered. f_equal.
  induction H as [|m l Hm _ IH]; [done|].
  rewrite filter_cons, decide_True by done. by rewrite IH.
Qed.

(** ** The stream loop *)

Lemma consume_spec st acc s :
  consume st acc s =
    (match stream_error st with
     | Some e => Raised e
     | None => Ret (accumulated st acc)
     end,
     State (session_state s) (log s ++ stream_events st acc)).
Proof.
  revert acc s. induction st as [|t rest IH|e]; intros acc s; simpl.
  - rewrite app_nil_r. by destruct s.
  - destruct (truthy t).
    + rewrite bind_emit, IH. simpl. by rewrite <- app_assoc.
    + apply IH.
  - rewrite app_nil_r. by destruct s.
Qed.

Lemma respond_spec c history s :
  let st := generate_content_stream c (the_request history) in
  respond c history s =
    (Ret (reply st),
     State (session_state s)
       (log s ++ [st_chat_message "assistant"; st_empty;
                  models_generate_content_stream (the_request history)]
              ++ stream_events st "" ++ [closing_event st])).
Proof.
  intros st. unfold respond. rewrite !bind_emit. unfold try_except.
  rewrite bind_emit. unfold mbind at 1, M_bind at 1.
  rewrite consume_spec. fold (the_request history). fold st.
  unfold reply, closing_event, error_message.
  destruct (stream_error st) as [e|]; simpl.
  - destruct (is_APIError e); unfold mbind, M_bind, emit; simpl;
      rewrite <- !app_assoc; reflexivity.
  - unfold emit; simpl. rewrite <- !app_assoc. reflexivity.
Qed.

(** ** Startup *)

Lemma truthy_Some k : k ≠ "" → truthy (Some k) = true.
Proof.
  intros Hk. simpl. destruct (String.eqb_spec k ""); [done|reflexivity].
Qed.

Lemma truthy_inv o : truthy o = true → ∃ p, o = Some p ∧ p ≠ "".
Proof.
  destruct o as [p|]; simpl; [|done].
  destruct (String.eqb_spec p ""); [done|]. eauto.
Qed.

Lemma startup_ok h c s : starts h c → startup h s = (Ret c, s).
Proof.
  intros (k & Hk & Hne & Hc). unfold startup, getenv. rewrite Hk.
  rewrite truthy_Some by done. simpl.
  unfold mbind, M_bind, mret, M_ret, try_except. simpl. by rewrite Hc.
Qed.

Lemma startup_no_key h s :
  truthy (getenv (environ h) "GEMINI_API_KEY") = false →
  startup h s = (Stopped, State (session_state s) (log s ++ no_key_events)).
Proof.
  intros Hk. unfold startup. rewrite Hk. simpl.
  unfold mbind, M_bind, emit, stop. simpl. by rewrite <- !app_assoc.
Qed.

Lemma startup_client_fails h k e s :
  environ h !! "GEMINI_API_KEY" = Some k → k ≠ "" → genai_Client h k = inl e →
  startup h s =
    (Stopped,
     State (session_state s)
       (log s ++ [st_error ("⚠️ Gemini 클라이언트 초기화 실패: " +:+ exc_str e); st_stop])).
Proof.
  intros Hk Hne Hc. unfold startup, getenv. rewrite Hk.
  rewrite truthy_Some by done. simpl.
  unfold mbind, M_bind, mret, M_ret, try_except, emit, stop. simpl.
  rewrite Hc. simpl. by rewrite <- !app_assoc.
Qed.

(** ** The page around the chat *)

Lemma page_header_spec s :
  page_header s = (Ret tt, State (session_state s) (log s ++ header_events)).
Proof.
  unfold page_header. rewrite !bind_emit. unfold emit. simpl.
  by rewrite <- !app_assoc.
Qed.

Lemma sidebar_spec s :
  sidebar s = (Ret tt, State (session_state s) (log s ++ sidebar_events)).
Proof.
  unfold sidebar. rewrite !bind_emit. unfold emit. simpl.
  by rewrite <- !app_assoc.
Qed.

Lemma init_messages_spec s :
  init_messages s = (Ret tt, State (seeded (session_state s)) (log s)).
Proof.
  unfold init_messages, seeded, get_session_state, mbind, M_bind.
  destruct (contains "messages" (session_state s)); simpl; [by destruct s|done].
Qed.

Lemma transcript_seeded ss :
  transcript (seeded ss) = Some (default [welcome] (transcript ss)).
Proof.
  unfold seeded, contains, transcript.
  destruct (ss !! "messages") as [l|] eqn:E.
  - rewrite bool_decide_eq_true_2 by eauto. by rewrite E.
  - rewrite bool_decide_eq_false_2 by (by intros [? ?]).
    by rewrite lookup_insert_eq.
Qed.

Lemma display_loop_spec msgs s :
  display_loop msgs s = (Ret tt, State (session_state s) (log s ++ display_events msgs)).
Proof.
  revert s. induction msgs as [|m rest IH]; intros s; simpl.
  - rewrite app_nil_r. by destruct s.
  - rewrite !bind_emit, IH. simpl. by rewrite <- !app_assoc.
Qed.

Lemma display_messages_spec s l :
  session_state s !! "messages" = Some l →
  display_messages s = (Ret tt, State (session_state s) (log s ++ display_events l)).
Proof.
  intros E. unfold display_messages, get_messages, mbind, M_bind. rewrite E.
  apply display_loop_spec.
Qed.

Lemma messages_append_spec s l m :
  session_state s !! "messages" = Some l →
  messages_append m s =
    (Ret tt, State (<["messages" := l ++ [m]]> (session_state s)) (log s)).
Proof.
  intros E. unfold messages_append, get_messages, mbind, M_bind. by rewrite E.
Qed.

(** ** One submission *)

Lemma handle_input_idle h c s :
  truthy (chat_input h) = false →
  handle_input h c s =
    (Ret tt, State (session_state s) (log s ++ [chat_input_event])).
Proof. intros E. unfold handle_input. rewrite bind_emit, E. reflexivity. Qed.

Lemma handle_input_submit h c s l0 p :
  session_state s !! "messages" = Some l0 →
  chat_input h = Some p → p ≠ "" →
  let l1 := l0 ++ [Message "user" p] in
  let st := generate_content_stream c (the_request (rendered l1)) in
  handle_input h c s =
    (Ret tt,
     State (<["messages" := l1 ++ [Message "assistant" (reply st)]]> (session_state s))
           (log s ++ submit_events p l1 st)).
Proof.
  intros E Hp Hne l1 st. unfold handle_input.
  rewrite bind_emit, Hp, truthy_Some by done. simpl.
  erewrite bind_ret by (apply messages_append_spec; simpl; exact E).
  rewrite !bind_emit. simpl.
  erewrite bind_ret by (apply render_spec; simpl; apply lookup_insert_eq).
  erewrite bind_ret by apply respond_spec.
  erewrite messages_append_spec by (simpl; apply lookup_insert_eq).
  simpl. rewrite insert_insert_eq. fold l1. fold st.
  unfold submit_events, chat_input_event. rewrite <- !app_assoc. reflexivity.
Qed.

(** ** One execution of the script *)

Lemma app_no_key h s :
  truthy (getenv (environ h) "GEMINI_API_KEY") = false →
  app h s = (Stopped, State (session_state s) (log s ++ no_key_events)).
Proof.
  intros Hk. unfold app. erewrite bind_stopped by (by apply startup_no_key).
  reflexivity.
Qed.

Lemma app_client_fails h k e s :
  environ h !! "GEMINI_API_KEY" = Some k → k ≠ "" → genai_Client h k = inl e →
  (app h s).1 = Stopped ∧ session_state (app h s).2 = session_state s.
Proof.
  intros Hk Hne Hc. unfold app.
  erewrite bind_stopped by (by eapply startup_client_fails). done.
Qed.

Lemma app_idle h c s :
  starts h c → truthy (chat_input h) = false →
  app h s =
    (Ret tt,
     State (seeded (session_state s))
       (log s ++ header_events
              ++ display_events (default [welcome] (transcript (session_state s)))
              ++ [chat_input_event] ++ sidebar_events)).
Proof.
  intros Hs Hp. unfold app.
  erewrite bind_ret by (by apply startup_ok).
  erewrite bind_ret by apply page_header_spec.
  erewrite bind_ret by apply init_messages_spec.
  erewrite bind_ret by (apply display_messages_spec; simpl; apply transcript_seeded).
  erewrite bind_ret by (by apply handle_input_idle).
  rewrite sidebar_spec. simpl. rewrite <- !app_assoc. reflexivity.
Qed.

Lemma app_submit h c s p :
  starts h c → chat_input h = Some p → p ≠ "" →
  let l0 := default [welcome] (transcript (session_state s)) in
  let l1 := l0 ++ [Message "user" p] in
  let st := generate_content_stream c (the_request (rendered l1)) in
  app h s =
    (Ret tt,
     State (<["messages" := l1 ++ [Message "assistant" (reply st)]]>
              (seeded (session_state s)))
       (log s ++ header_events ++ display_events l0
              ++ submit_events p l1 st ++ sidebar_events)).
Proof.
  intros Hs Hp Hne l0 l1 st. unfold app.
  erewrite bind_ret by (by apply startup_ok).
  erewrite bind_ret by apply page_header_spec.
  erewrite bind_ret by apply init_messages_spec.
  erewrite bind_ret by (apply display_messages_spec; simpl; apply transcript_seeded).
  erewrite bind_ret
    by (eapply handle_input_submit; [simpl; apply transcript_seeded|done..]).
  rewrite sidebar_spec. simpl. fold l0 l1 st. do 2 f_equal.
  unfold submit_events. rewrite <- !app_assoc. reflexivity.
Qed.

(** ** The render step *)

(** C2. For a transcript whose turns all have role "user" or "assistant",
    the render step returns a history of the same length, in the same
    order: entry [i] carries the text of turn [i] wrapped as a one-element
    list of parts, with role "user" for a user turn and "model" for an
    assistant turn.  The session state and the log are left as they were. *)
Theorem render_known_roles (s : state) (l : list message) :
  session_state s !! "messages" = Some l →
  Forall (λ m, role m = "user" ∨ role m = "assistant") l →
  ∃ history,
    render s = (Ret history, s) ∧
    length history = length l ∧
    ∀ i m, l !! i = Some m →
      ∃ w, history !! i = Some w ∧
           parts w = [Part (content m)] ∧
           (role m = "user" → wire_role w = "user") ∧
           (role m = "assistant" → wire_role w = "model").
Proof.
  intros E Hl. exists (wire_of <$> l). split; [|split].
  - rewrite (render_spec s l E). by rewrite rendered_all.
  - by rewrite length_fmap.
  - intros i m Hi. exists (wire_of m). split; [|split; [|split]].
    + by rewrite list_lookup_fmap, Hi.
    + reflexivity.
    + intros Hu. unfold wire_of. simpl. by rewrite decide_True.
    + intros Ha. unfold wire_of. simpl.
      rewrite decide_False; [done|]. rewrite Ha. discriminate.
Qed.

Lemma render_known_roles_witness :
  ∃ history,
    render (State {[ "messages" := two_turns ]} []) =
      (Ret history, State {[ "messages" := two_turns ]} []) ∧
    length history = length two_turns ∧
    ∀ i m, two_turns !! i = Some m →
      ∃ w, history !! i = Some w ∧
           parts w = [Part (content m)] ∧
           (role m = "user" → wire_role w = "user") ∧
           (role m = "assistant" → wire_role w = "model").
Proof.
  apply (render_known_roles (State {[ "messages" := two_turns ]} []) two_turns).
  - vm_compute. reflexivity.
  - repeat (constructor; [first [left; reflexivity | right; reflexivity]|]).
    constructor.
Defined.

Example render_two_turns :
  (render (State {[ "messages" := two_turns ]} [])).1 =
    Ret [MkContent "model" [Part "hello"]; MkContent "user" [Part "print(1"]].
Proof. vm_compute. reflexivity. Qed.

(** C6. The render step never raises on a transcript: it returns exactly
    the turns with a recognised role, in order, each in request format.  A
    turn with any other role is left out, and the result is the same as if
    that turn were not in the transcript. *)
Theorem render_drops_unknown_roles (s : state) (l : list message) :
  session_state s !! "messages" = Some l →
  render s = (Ret (wire_of <$> filter recognised l), s) ∧
  ∀ l1 m l2, l = l1 ++ m :: l2 → ¬ recognised m →
    history_loop l [] s = history_loop (l1 ++ l2) [] s.
Proof.
  intros E. split.
  - apply (render_spec s l E).
  - intros l1 m l2 -> Hm. rewrite !history_loop_spec. do 2 f_equal.
    rewrite !rendered_app. f_equal. unfold rendered.
    by rewrite filter_cons, decide_False.
Qed.

Lemma render_drops_unknown_roles_witness :
  render (State {[ "messages" := with_system_turn ]} []) =
    (Ret (wire_of <$> filter recognised with_system_turn),
     State {[ "messages" := with_system_turn ]} []) ∧
  ∀ l1 m l2, with_system_turn = l1 ++ m :: l2 → ¬ recognised m →
    history_loop with_system_turn [] (State {[ "messages" := with_system_turn ]} [])
    = history_loop (l1 ++ l2) [] (State {[ "messages" := with_system_turn ]} []).
Proof.
  apply (render_drops_unknown_roles
           (State {[ "messages" := with_system_turn ]} []) with_system_turn).
  vm_compute. reflexivity.
Defined.

Example render_with_system_turn :
  (render (State {[ "messages" := with_system_turn ]} [])).1 =
    Ret [MkContent "model" [Part "hello"]; MkContent "user" [Part "hi"]].
Proof. vm_compute. reflexivity. Qed.

(** C7. The render step is a function of the transcript alone: two states
    with the same transcript give the same result whatever else they hold,
    rendering changes neither the session state nor the log, and rendering
    twice in a row returns the same history both times. *)
Theorem render_deterministic :
  (∀ s1 s2,
     transcript (session_state s1) = transcript (session_state s2) →
     (render s1).1 = (render s2).1) ∧
  (∀ s, (render s).2 = s) ∧
  (∀ s, is_Some (transcript (session_state s)) →
     ∃ history,
       (h1 ← render; h2 ← render; mret (h1, h2)) s = (Ret (history, history), s)).
Proof.
  split; [|split].
  - intros s1 s2 E. unfold transcript in E.
    destruct (session_state s1 !! "messages") as [l|] eqn:E1.
    + rewrite (render_spec s1 l E1), (render_spec s2 l) by done. done.
    + unfold render, get_messages, mbind, M_bind. by rewrite E1, <- E.
  - intros s. destruct (session_state s !! "messages") as [l|] eqn:E1.
    + by rewrite (render_spec s l E1).
    + unfold render, get_messages, mbind, M_bind. by rewrite E1.
  - intros s [l E]. exists (rendered l).
    erewrite bind_ret by (by apply render_spec).
    erewrite bind_ret by (by apply render_spec). reflexivity.
Qed.

Lemma render_deterministic_witness :
  (render (State {[ "messages" := two_turns ]} [])).1 =
  (render (State {[ "messages" := two_turns; "draft" := [welcome] ]} [st_divider])).1.
Proof.
  apply (proj1 render_deterministic). vm_compute. reflexivity.
Defined.

(** ** Runs and what they leave behind *)

Lemma run_no_key h ss :
  truthy (getenv (environ h) "GEMINI_API_KEY") = false →
  run h ss = (Stopped, State ss no_key_events).
Proof. intros Hk. unfold run. by rewrite app_no_key. Qed.

Lemma run_idle h c ss :
  starts h c → truthy (chat_input h) = false →
  run h ss =
    (Ret tt,
     State (seeded ss)
       (header_events ++ display_events (default [welcome] (transcript ss))
          ++ [chat_input_event] ++ sidebar_events)).
Proof. intros Hs Hp. unfold run. by rewrite (app_idle h c). Qed.

Lemma run_submit h c ss p :
  starts h c → chat_input h = Some p → p ≠ "" →
  let l0 := default [welcome] (transcript ss) in
  let l1 := l0 ++ [Message "user" p] in
  let st := generate_content_stream c (the_request (rendered l1)) in
  run h ss =
    (Ret tt,
     State (<["messages" := l1 ++ [Message "assistant" (reply st)]]> (seeded ss))
       (header_events ++ display_events l0
          ++ submit_events p l1 st ++ sidebar_events)).
Proof. intros Hs Hp Hne. unfold run. by rewrite (app_submit h c _ p). Qed.

Lemma transcript_run_idle h c ss :
  starts h c → truthy (chat_input h) = false →
  transcript (run_state h ss) = Some (default [welcome] (transcript ss)).
Proof.
  intros Hs Hp. unfold run_state. rewrite (run_idle h c) by done.
  apply transcript_seeded.
Qed.

Lemma transcript_run_submit h c ss p :
  starts h c → chat_input h = Some p → p ≠ "" →
  let l1 := default [welcome] (transcript ss) ++ [Message "user" p] in
  transcript (run_state h ss) =
    Some (l1 ++ [Message "assistant"
                   (reply (generate_content_stream c (the_request (rendered l1))))]).
Proof.
  intros Hs Hp Hne l1. unfold run_state. rewrite (run_submit h c ss p) by done.
  apply lookup_insert_eq.
Qed.

(** Every run either halts in [startup], leaving the session state as it
    was, or goes through with a client. *)
Lemma startup_cases h :
  (∀ ss, (run h ss).1 = Stopped ∧ run_state h ss = ss) ∨ (∃ c, starts h c).
Proof.
  destruct (truthy (getenv (environ h) "GEMINI_API_KEY")) eqn:Hk.
  - apply truthy_inv in Hk as (k & Hk & Hne).
    destruct (genai_Client h k) as [e|c] eqn:Hc.
    + left. intros ss. unfold run_state, run. by eapply app_client_fails.
    + right. exists c, k. done.
  - left. intros ss. unfold run_state. by rewrite run_no_key.
Qed.

(** A run only ever extends the transcript. *)
Lemma run_extends h ss l :
  transcript ss = Some l →
  ∃ ext, transcript (run_state h ss) = Some (l ++ ext).
Proof.
  intros E. destruct (startup_cases h) as [Hhalt|[c Hs]].
  - exists []. rewrite app_nil_r. by rewrite (proj2 (Hhalt ss)).
  - destruct (truthy (chat_input h)) eqn:Hp.
    + apply truthy_inv in Hp as (p & Hp & Hne).
      rewrite (transcript_run_submit h c ss p) by done. rewrite E. simpl.
      rewrite <- app_assoc. eauto.
    + exists []. rewrite (transcript_run_idle h c) by done.
      rewrite E. simpl. by rewrite app_nil_r.
Qed.

Lemma run_creates h ss :
  transcript ss = None →
  transcript (run_state h ss) = None ∨
  ∃ ext, transcript (run_state h ss) = Some (welcome :: ext).
Proof.
  intros E. destruct (startup_cases h) as [Hhalt|[c Hs]].
  - left. by rewrite (proj2 (Hhalt ss)).
  - right. destruct (truthy (chat_input h)) eqn:Hp.
    + apply truthy_inv in Hp as (p & Hp & Hne).
      rewrite (transcript_run_submit h c ss p) by done. rewrite E. simpl. eauto.
    + exists []. rewrite (transcript_run_idle h c) by done. by rewrite E.
Qed.

Lemma session_app hs1 hs2 ss :
  session (hs1 ++ hs2) ss = session hs2 (session hs1 ss).
Proof. revert ss. induction hs1 as [|h hs1 IH]; intros ss; simpl; [done|apply IH]. Qed.

Lemma session_extends hs ss l :
  transcript ss = Some l →
  ∃ ext, transcript (session hs ss) = Some (l ++ ext).
Proof.
  revert ss l. induction hs as [|h hs IH]; intros ss l E; simpl.
  - exists []. by rewrite app_nil_r.
  - destruct (run_extends h ss l E) as [ext1 E1].
    destruct (IH _ _ E1) as [ext2 E2].
    exists (ext1 ++ ext2). by rewrite E2, <- app_assoc.
Qed.

Lemma session_creates hs ss :
  transcript ss = None →
  transcript (session hs ss) = None ∨
  ∃ ext, transcript (session hs ss) = Some (welcome :: ext).
Proof.
  revert ss. induction hs as [|h hs IH]; intros ss E; simpl.
  - by left.
  - destruct (run_creates h ss E) as [E1|[ext1 E1]].
    + by apply IH.
    + right. destruct (session_extends hs _ _ E1) as [ext2 E2].
      exists (ext1 ++ ext2). by rewrite E2.
Qed.

(** ** Sessions: length and append-only growth *)

Lemma length_exchange_roles n : length (exchange_roles n) = 2 * n.
Proof.
  unfold exchange_roles. induction n as [|n IH]; [done|].
  simpl. rewrite IH. lia.
Qed.

Lemma run_roles h c ss :
  starts h c →
  ∃ ext,
    transcript (run_state h ss) = Some (default [welcome] (transcript ss) ++ ext) ∧
    role <$> ext = if truthy (chat_input h) then ["user"; "assistant"] else [].
Proof.
  intros Hs. destruct (truthy (chat_input h)) eqn:Hp.
  - apply truthy_inv in Hp as (p & Hp & Hne).
    eexists [_; _]. rewrite (transcript_run_submit h c ss p) by done.
    rewrite <- app_assoc. split; reflexivity.
  - exists []. rewrite (transcript_run_idle h c) by done.
    by rewrite app_nil_r.
Qed.

Lemma session_roles hs ss :
  Forall (λ h, ∃ c, starts h c) hs →
  hs ≠ [] ∨ is_Some (transcript ss) →
  ∃ ext,
    transcript (session hs ss) = Some (default [welcome] (transcript ss) ++ ext) ∧
    role <$> ext = exchange_roles (submissions hs).
Proof.
  intros Hhs. revert ss.
  induction Hhs as [|h hs [c Hs] _ IH]; intros ss Hne; simpl.
  - destruct Hne as [?|[l E]]; [done|].
    exists []. rewrite E. simpl. by rewrite app_nil_r.
  - destruct (run_roles h c ss Hs) as (ext1 & E1 & R1).
    destruct (IH (run_state h ss)) as (ext2 & E2 & R2); [right; by rewrite E1|].
    exists (ext1 ++ ext2). rewrite E2, E1. simpl. rewrite <- app_assoc.
    split; [done|]. rewrite fmap_app, R1, R2.
    unfold submissions, exchange_roles. rewrite filter_cons.
    destruct (truthy (chat_input h)).
    + by rewrite decide_True.
    + by rewrite decide_False.
Qed.

(** C1. A session of at least one script run in which startup goes through
    and the stream of every submission ends without raising leaves a
    transcript of length [1 + 2N], where [N] counts the runs with a
    submitted prompt: the welcome turn first, then one user turn and one
    assistant turn per submission, in that order. *)
Theorem transcript_length_after_session (hs : list host) :
  hs ≠ [] →
  Forall (λ h, ∃ c, starts h c ∧
                 (truthy (chat_input h) = true →
                  ∀ req, stream_error (generate_content_stream c req) = None)) hs →
  ∃ l,
    transcript (session hs ∅) = Some l ∧
    length l = 1 + 2 * submissions hs ∧
    l !! 0 = Some welcome ∧
    role <$> l = "assistant" :: exchange_roles (submissions hs).
Proof.
  intros Hne Hhs.
  destruct (session_roles hs ∅) as (ext & E & R).
  { eapply Forall_impl; [exact Hhs|]. intros h (c & Hs & _). eauto. }
  { by left. }
  exists (welcome :: ext). split; [exact E|]. split; [|split].
  - pose proof (f_equal length R) as L.
    rewrite length_fmap, length_exchange_roles in L. simpl. lia.
  - reflexivity.
  - by rewrite fmap_cons, R.
Qed.

Lemma transcript_length_after_session_witness :
  ∃ l,
    transcript (session three_runs ∅) = Some l ∧
    length l = 1 + 2 * submissions three_runs ∧
    l !! 0 = Some welcome ∧
    role <$> l = "assistant" :: exchange_roles (submissions three_runs).
Proof.
  apply (transcript_length_after_session three_runs).
  - discriminate.
  - repeat (constructor;
      [eexists; split;
       [exists "k"; split; [vm_compute; reflexivity|split; [discriminate|reflexivity]]
       |intros _ req; vm_compute; reflexivity]|]).
    constructor.
Defined.

Example three_runs_transcript :
  transcript (session three_runs ∅) =
    Some [welcome; Message "user" "hi"; Message "assistant" "Hello world";
          Message "user" "more"; Message "assistant" "x = 1"].
Proof. vm_compute. reflexivity. Qed.

(** At the boundaries of runs that go to their end: the seeding step
    creates the transcript as the single assistant welcome turn when there
    is none and leaves an existing one alone; [messages.append] adds its
    turn at the end; the transcript is either not created yet or starts
    with the welcome turn; and a later transcript extends an earlier one. *)
Lemma transcript_append_only_at_run_ends :
  (∀ s, transcript (session_state s) = None →
        transcript (session_state (init_messages s).2) = Some [welcome]) ∧
  role welcome = "assistant" ∧
  (∀ s, is_Some (transcript (session_state s)) → (init_messages s).2 = s) ∧
  (∀ s l m, transcript (session_state s) = Some l →
            transcript (session_state (messages_append m s).2) = Some (l ++ [m])) ∧
  (∀ hs, transcript (session hs ∅) = None ∨
         ∃ ext, transcript (session hs ∅) = Some (welcome :: ext)) ∧
  (∀ hs1 hs2 l,
     transcript (session hs1 ∅) = Some l →
     ∃ ext, transcript (session (hs1 ++ hs2) ∅) = Some (l ++ ext)).
Proof.
  split; [|split; [|split; [|split; [|split]]]].
  - intros s E. rewrite init_messages_spec. simpl.
    by rewrite transcript_seeded, E.
  - reflexivity.
  - intros s [l E]. rewrite init_messages_spec. unfold seeded, contains.
    rewrite bool_decide_eq_true_2 by (by exists l). by destruct s.
  - intros s l m E. rewrite (messages_append_spec s l m E). simpl.
    apply lookup_insert_eq.
  - intros hs. by apply session_creates.
  - intros hs1 hs2 l E. rewrite session_app. by apply session_extends.
Qed.

(** ** Reading the log of a submission *)

Lemma network_calls_app l1 l2 :
  network_calls (l1 ++ l2) = network_calls l1 ++ network_calls l2.
Proof. apply omap_app. Qed.

Lemma placeholder_bodies_app l1 l2 :
  placeholder_bodies (l1 ++ l2) = placeholder_bodies l1 ++ placeholder_bodies l2.
Proof. apply omap_app. Qed.

Lemma network_calls_display msgs : network_calls (display_events msgs) = [].
Proof. induction msgs as [|m rest IH]; [done|exact IH]. Qed.

Lemma placeholder_bodies_display msgs : placeholder_bodies (display_events msgs) = [].
Proof. induction msgs as [|m rest IH]; [done|exact IH]. Qed.

Lemma network_calls_stream st acc : network_calls (stream_events st acc) = [].
Proof.
  revert acc. induction st as [|t rest IH|e]; intros acc; simpl; [done| |done].
  destruct (truthy t); [|apply IH]. apply (IH (acc +:+ default "" t)).
Qed.

Lemma network_calls_closing st : network_calls [closing_event st] = [].
Proof. unfold closing_event. by destruct (stream_error st). Qed.

Lemma network_calls_run_submit h c ss p :
  starts h c → chat_input h = Some p → p ≠ "" →
  network_calls (run_log h ss) =
    [the_request (rendered (default [welcome] (transcript ss) ++ [Message "user" p]))].
Proof.
  intros Hs Hp Hne. unfold run_log. rewrite (run_submit h c ss p) by done.
  unfold submit_events. cbn [snd log].
  rewrite !network_calls_app, network_calls_display, network_calls_stream,
    network_calls_closing.
  reflexivity.
Qed.

Lemma placeholder_bodies_run_submit h c ss p :
  starts h c → chat_input h = Some p → p ≠ "" →
  let st := generate_content_stream c
              (the_request (rendered (default [welcome] (transcript ss)
                                        ++ [Message "user" p]))) in
  placeholder_bodies (run_log h ss) =
    placeholder_bodies (stream_events st "") ++
    placeholder_bodies [closing_event st].
Proof.
  intros Hs Hp Hne st. unfold run_log. rewrite (run_submit h c ss p) by done.
  unfold submit_events. cbn [snd log].
  rewrite !placeholder_bodies_app, placeholder_bodies_display. fold st.
  simpl. by rewrite app_nil_r.
Qed.

Lemma stream_error_stream_of chunks tail :
  stream_error (stream_of chunks tail) = stream_error tail.
Proof. induction chunks as [|t rest IH]; [done|exact IH]. Qed.

Lemma stream_of_falsy chunks tail acc :
  Forall (λ t, truthy t = false) chunks →
  accumulated (stream_of chunks tail) acc = accumulated tail acc ∧
  stream_events (stream_of chunks tail) acc = stream_events tail acc.
Proof.
  induction 1 as [|t rest Ht _ IH]; simpl; [done|]. by rewrite Ht.
Qed.

Lemma append_assoc (s1 s2 s3 : string) :
  (s1 +:+ s2) +:+ s3 = s1 +:+ (s2 +:+ s3).
Proof.
  induction s1 as [|a s1 IH]; [reflexivity|].
  change (String a ((s1 +:+ s2) +:+ s3) = String a (s1 +:+ (s2 +:+ s3))).
  by rewrite IH.
Qed.

Lemma append_nonempty (s1 s2 : string) : s1 ≠ "" → s1 +:+ s2 ≠ "".
Proof. destruct s1; [done|]. intros _. discriminate. Qed.

Lemma error_message_nonempty e : error_message e ≠ "".
Proof.
  unfold error_message. apply append_nonempty. by destruct (is_APIError e).
Qed.

Lemma error_message_mentions e : mentions error_indicator (error_message e).
Proof.
  unfold mentions, error_message, error_indicator. destruct (is_APIError e).
  - exists "API 호출 중 ", ("가 발생했습니다: " +:+ exc_str e).
    change api_error_prefix with ("API 호출 중 " +:+ "오류" +:+ "가 발생했습니다: ").
    by rewrite !append_assoc.
  - exists "예상치 못한 ", ("가 발생했습니다: " +:+ exc_str e).
    change unexpected_error_prefix with ("예상치 못한 " +:+ "오류" +:+ "가 발생했습니다: ").
    by rewrite !append_assoc.
Qed.

(** ** Submissions *)

(** C3. When the stream yields the fragments "Hel", "lo", " world" and
    ends, the placeholder is updated after each fragment with the text so
    far followed by the cursor and finally with "Hello world" alone, which
    is what it shows in the end; the assistant turn appended to the
    transcript has exactly the content "Hello world". *)
Theorem hello_world_stream (h : host) (c : Client)
    (ss : gmap string (list message)) (p : string) :
  starts h c → chat_input h = Some p → p ≠ "" →
  (∀ req, generate_content_stream c req = fragments ["Hel"; "lo"; " world"]) →
  placeholder_bodies (run_log h ss) =
    ["Hel▌"; "Hello▌"; "Hello world▌"; "Hello world"] ∧
  displayed (run_log h ss) = Some "Hello world" ∧
  transcript (run_state h ss) =
    Some (default [welcome] (transcript ss)
            ++ [Message "user" p; Message "assistant" "Hello world"]).
Proof.
  intros Hs Hp Hne Hst.
  assert (B : placeholder_bodies (run_log h ss) =
                ["Hel▌"; "Hello▌"; "Hello world▌"; "Hello world"]).
  { rewrite (placeholder_bodies_run_submit h c ss p) by done.
    rewrite Hst. vm_compute. reflexivity. }
  split; [exact B|]. split.
  - unfold displayed. rewrite B. reflexivity.
  - rewrite (transcript_run_submit h c ss p) by done. rewrite Hst.
    change (reply (fragments ["Hel"; "lo"; " world"])) with "Hello world".
    by rewrite <- app_assoc.
Qed.

Lemma hello_world_stream_witness :
  placeholder_bodies (run_log hello_host ∅) =
    ["Hel▌"; "Hello▌"; "Hello world▌"; "Hello world"] ∧
  displayed (run_log hello_host ∅) = Some "Hello world" ∧
  transcript (run_state hello_host ∅) =
    Some (default [welcome] (transcript ∅)
            ++ [Message "user" "hi"; Message "assistant" "Hello world"]).
Proof.
  apply (hello_world_stream hello_host
           (MkClient (λ _, fragments ["Hel"; "lo"; " world"])) ∅ "hi").
  - starts_with "k".
  - reflexivity.
  - discriminate.
  - intros req. reflexivity.
Defined.

(** C4. When the stream raises, before or after any number of chunks, the
    submission still ends normally and appends exactly the user turn and
    one assistant turn.  The content of that turn is the error message (the
    prefix of the matching [except] clause followed by the text of the
    exception), not the text accumulated so far; it is non-empty, contains
    the word for "error", and is also shown with [st.error]. *)
Theorem stream_failure_recorded (h : host) (c : Client)
    (ss : gmap string (list message)) (p : string)
    (chunks : list (option string)) (e : exn) :
  starts h c → chat_input h = Some p → p ≠ "" →
  (∀ req, generate_content_stream c req = stream_of chunks (StreamRaise e)) →
  let msg := (if is_APIError e then api_error_prefix else unexpected_error_prefix)
               +:+ exc_str e in
  (run h ss).1 = Ret tt ∧
  transcript (run_state h ss) =
    Some (default [welcome] (transcript ss)
            ++ [Message "user" p; Message "assistant" msg]) ∧
  msg ≠ "" ∧
  mentions error_indicator msg ∧
  st_error msg ∈ run_log h ss.
Proof.
  intros Hs Hp Hne Hst msg.
  assert (R : ∀ req, reply (generate_content_stream c req) = msg).
  { intros req. unfold reply. rewrite Hst, stream_error_stream_of. reflexivity. }
  split; [by rewrite (run_submit h c ss p)|]. split; [|split; [|split]].
  - rewrite (transcript_run_submit h c ss p) by done. rewrite R.
    by rewrite <- app_assoc.
  - apply error_message_nonempty.
  - apply error_message_mentions.
  - unfold run_log. rewrite (run_submit h c ss p) by done. cbn [snd log].
    unfold submit_events, closing_event.
    rewrite Hst, stream_error_stream_of. simpl stream_error. cbv beta iota.
    rewrite !elem_of_app. do 2 right. left. do 2 right.
    apply list_elem_of_singleton. reflexivity.
Qed.

Lemma stream_failure_recorded_witness :
  (run failing_host ∅).1 = Ret tt ∧
  transcript (run_state failing_host ∅) =
    Some (default [welcome] (transcript ∅)
            ++ [Message "user" "hi";
                Message "assistant" (api_error_prefix +:+ "429 quota")]) ∧
  api_error_prefix +:+ "429 quota" ≠ "" ∧
  mentions error_indicator (api_error_prefix +:+ "429 quota") ∧
  st_error (api_error_prefix +:+ "429 quota") ∈ run_log failing_host ∅.
Proof.
  apply (stream_failure_recorded failing_host
           (MkClient (λ _, stream_of [Some "Hel"; Some "lo"]
                             (StreamRaise (Exn APIError "429 quota"))))
           ∅ "hi" [Some "Hel"; Some "lo"] (Exn APIError "429 quota")).
  - starts_with "k".
  - reflexivity.
  - discriminate.
  - intros req. reflexivity.
Defined.

Example failing_run_transcript :
  transcript (run_state failing_host ∅) =
    Some [welcome; Message "user" "hi";
          Message "assistant" "API 호출 중 오류가 발생했습니다: 429 quota"].
Proof. vm_compute. reflexivity. Qed.

(** C5. With no [GEMINI_API_KEY] in the environment every run of the
    script shows the two error messages and stops there: the run halts, the
    session state is the one it started with, and the log holds no call to
    the client and no chat input.  Over a whole session of such runs the
    session state never changes and no request is ever sent. *)
Theorem missing_key_halts (hs : list host) (ss : gmap string (list message)) :
  Forall (λ h, environ h !! "GEMINI_API_KEY" = None) hs →
  Forall (λ h, run h ss = (Stopped, State ss no_key_events)) hs ∧
  session hs ss = ss ∧
  network_calls (session_log hs ss) = [] ∧
  chat_input_event ∉ session_log hs ss.
Proof.
  intros Hhs.
  assert (Hrun : ∀ h ss', environ h !! "GEMINI_API_KEY" = None →
                          run h ss' = (Stopped, State ss' no_key_events)).
  { intros h ss' Hk. apply run_no_key. unfold getenv. by rewrite Hk. }
  split; [|split; [|split]].
  - eapply Forall_impl; [exact Hhs|]. intros h Hk. by apply Hrun.
  - induction Hhs as [|h hs Hk _ IH]; simpl; [done|].
    unfold run_state. by rewrite (Hrun h ss Hk).
  - induction Hhs as [|h hs Hk _ IH]; simpl; [done|].
    unfold run_state, run_log. rewrite (Hrun h ss Hk). simpl.
    exact IH.
  - induction Hhs as [|h hs Hk _ IH]; simpl; [apply not_elem_of_nil|].
    unfold run_state, run_log. rewrite (Hrun h ss Hk). cbn [snd log session_state].
    rewrite elem_of_app. intros [Hin|Hin]; [|by apply IH].
    unfold no_key_events in Hin.
    repeat (apply elem_of_cons in Hin as [Hin|Hin]; [discriminate Hin|]).
    by apply elem_of_nil in Hin.
Qed.

Lemma missing_key_halts_witness :
  Forall (λ h, run h ∅ = (Stopped, State ∅ no_key_events))
         [keyless_host None; keyless_host (Some "hi")] ∧
  session [keyless_host None; keyless_host (Some "hi")] ∅ = ∅ ∧
  network_calls (session_log [keyless_host None; keyless_host (Some "hi")] ∅) = [] ∧
  chat_input_event ∉ session_log [keyless_host None; keyless_host (Some "hi")] ∅.
Proof.
  apply (missing_key_halts [keyless_host None; keyless_host (Some "hi")] ∅).
  repeat (constructor; [vm_compute; reflexivity|]). constructor.
Defined.

(** C9. In every submission the user turn is already in the transcript
    when the history is built: the one request of the run carries the
    rendering of the transcript extended with the prompt, so its history is
    non-empty and ends with the prompt under role "user". *)
Theorem request_ends_with_prompt (h : host) (c : Client)
    (ss : gmap string (list message)) (p : string) :
  starts h c → chat_input h = Some p → p ≠ "" →
  ∃ history earlier,
    network_calls (run_log h ss) = [Request MODEL_NAME history SYSTEM_INSTRUCTION] ∧
    render (State (<["messages" := default [welcome] (transcript ss)
                                     ++ [Message "user" p]]> ss) [])
      = (Ret history,
         State (<["messages" := default [welcome] (transcript ss)
                                  ++ [Message "user" p]]> ss) []) ∧
    history = earlier ++ [MkContent "user" [Part p]] ∧
    history ≠ [] ∧
    last history = Some (MkContent "user" [Part p]).
Proof.
  intros Hs Hp Hne.
  set (l0 := default [welcome] (transcript ss)).
  exists (rendered (l0 ++ [Message "user" p])), (rendered l0).
  assert (E : rendered (l0 ++ [Message "user" p])
              = rendered l0 ++ [MkContent "user" [Part p]]).
  { rewrite rendered_app. f_equal. }
  split; [by apply (network_calls_run_submit h c)|]. split; [|split; [|split]].
  - apply render_spec. simpl. apply lookup_insert_eq.
  - exact E.
  - rewrite E. intros H0. by apply app_eq_nil in H0 as [_ ?].
  - rewrite E. apply last_snoc.
Qed.

Lemma request_ends_with_prompt_witness :
  ∃ history earlier,
    network_calls (run_log hello_host ∅) = [Request MODEL_NAME history SYSTEM_INSTRUCTION] ∧
    render (State (<["messages" := default [welcome] (transcript ∅)
                                     ++ [Message "user" "hi"]]> ∅) [])
      = (Ret history,
         State (<["messages" := default [welcome] (transcript ∅)
                                  ++ [Message "user" "hi"]]> ∅) []) ∧
    history = earlier ++ [MkContent "user" [Part "hi"]] ∧
    history ≠ [] ∧
    last history = Some (MkContent "user" [Part "hi"]).
Proof.
  apply (request_ends_with_prompt hello_host
           (MkClient (λ _, fragments ["Hel"; "lo"; " world"])) ∅ "hi").
  - starts_with "k".
  - reflexivity.
  - discriminate.
Defined.

Example hello_request :
  network_calls (run_log hello_host ∅) =
    [Request MODEL_NAME
       [MkContent "model" [Part (content welcome)]; MkContent "user" [Part "hi"]]
       SYSTEM_INSTRUCTION].
Proof. vm_compute. reflexivity. Qed.

(** C10. A chunk whose text is [None] or empty is skipped: the loop goes
    on with the same accumulator and logs nothing for it.  When the stream
    ends without raising and every chunk is of that kind (or there is no
    chunk at all), the placeholder is written once, with the empty string,
    and the assistant turn appended to the transcript has empty content. *)
Theorem silent_stream_gives_empty_reply (h : host) (c : Client)
    (ss : gmap string (list message)) (p : string)
    (chunks : list (option string)) :
  starts h c → chat_input h = Some p → p ≠ "" →
  Forall (λ t, t = None ∨ t = Some "") chunks →
  (∀ req, generate_content_stream c req = stream_of chunks StreamEnd) →
  transcript (run_state h ss) =
    Some (default [welcome] (transcript ss)
            ++ [Message "user" p; Message "assistant" ""]) ∧
  placeholder_bodies (run_log h ss) = [""] ∧
  ∀ t rest acc s, t = None ∨ t = Some "" →
    consume (StreamChunk t rest) acc s = consume rest acc s.
Proof.
  intros Hs Hp Hne Hchunks Hst.
  assert (F : Forall (λ t, truthy t = false) chunks).
  { eapply Forall_impl; [exact Hchunks|]. by intros t [->| ->]. }
  destruct (stream_of_falsy chunks StreamEnd "" F) as [A Ev].
  simpl in A, Ev.
  split; [|split].
  - rewrite (transcript_run_submit h c ss p) by done.
    unfold reply. rewrite Hst, stream_error_stream_of, A.
    by rewrite <- app_assoc.
  - rewrite (placeholder_bodies_run_submit h c ss p) by done.
    unfold closing_event. rewrite Hst, stream_error_stream_of, A, Ev. reflexivity.
  - by intros t rest acc s [->| ->].
Qed.

Lemma silent_stream_gives_empty_reply_witness :
  transcript (run_state silent_host ∅) =
    Some (default [welcome] (transcript ∅)
            ++ [Message "user" "hi"; Message "assistant" ""]) ∧
  placeholder_bodies (run_log silent_host ∅) = [""] ∧
  ∀ t rest acc s, t = None ∨ t = Some "" →
    consume (StreamChunk t rest) acc s = consume rest acc s.
Proof.
  apply (silent_stream_gives_empty_reply silent_host
           (MkClient (λ _, stream_of [None; Some ""] StreamEnd)) ∅ "hi"
           [None; Some ""]).
  - starts_with "k".
  - reflexivity.
  - discriminate.
  - repeat (constructor; [first [left; reflexivity | right; reflexivity]|]).
    constructor.
  - intros req. reflexivity.
Defined.

(** * Further properties of the script *)

(** ** Startup failures *)

Lemma run_client_fails h k e ss :
  environ h !! "GEMINI_API_KEY" = Some k → k ≠ "" → genai_Client h k = inl e →
  run h ss = (Stopped, State ss (client_failure_events e)).
Proof.
  intros Hk Hne Hc. unfold run, app.
  erewrite bind_stopped by (by eapply startup_client_fails). reflexivity.
Qed.

(** X1. When the key is set but the client constructor raises, the run
    shows one error message carrying the text of the exception and stops:
    the session state is untouched, and nothing else is logged (no page
    header, no chat input, no request, no sidebar). *)
Theorem client_failure_halts (h : host) (k : string) (e : exn)
    (ss : gmap string (list message)) :
  environ h !! "GEMINI_API_KEY" = Some k → k ≠ "" → genai_Client h k = inl e →
  run h ss =
    (Stopped,
     State ss [st_error ("⚠️ Gemini 클라이언트 초기화 실패: " +:+ exc_str e); st_stop]).
Proof. apply run_client_fails. Qed.

Lemma client_failure_halts_witness :
  run broken_client_host {[ "messages" := two_turns ]} =
    (Stopped,
     State {[ "messages" := two_turns ]}
       [st_error ("⚠️ Gemini 클라이언트 초기화 실패: " +:+ "bad key"); st_stop]).
Proof.
  apply (client_failure_halts broken_client_host "k" (Exn OtherException "bad key")).
  - vm_compute. reflexivity.
  - discriminate.
  - reflexivity.
Defined.

(** X2. A key that is set to the empty string counts as missing: the run
    shows the same two messages as for an unset key and stops without
    touching the session state. *)
Theorem empty_key_halts (h : host) (ss : gmap string (list message)) :
  environ h !! "GEMINI_API_KEY" = Some "" →
  run h ss = (Stopped, State ss no_key_events).
Proof. intros Hk. apply run_no_key. unfold getenv. by rewrite Hk. Qed.

Lemma empty_key_halts_witness :
  run (Host {[ "GEMINI_API_KEY" := "" ]} (λ _, inr (MkClient (λ _, StreamEnd))) (Some "hi")) ∅
  = (Stopped, State ∅ no_key_events).
Proof.
  apply (empty_key_halts
           (Host {[ "GEMINI_API_KEY" := "" ]} (λ _, inr (MkClient (λ _, StreamEnd))) (Some "hi")) ∅).
  vm_compute. reflexivity.
Defined.

Lemma run_completes h c ss :
  starts h c →
  (run h ss).1 = Ret tt ∧
  ∃ body, run_log h ss = header_events ++ body ++ sidebar_events.
Proof.
  intros Hs. unfold run_log. destruct (truthy (chat_input h)) eqn:Hp.
  - apply truthy_inv in Hp as (p & Hp & Hne).
    rewrite (run_submit h c ss p) by done. split; [done|]. cbn [snd log].
    eexists (_ ++ _). by rewrite <- app_assoc.
  - rewrite (run_idle h c ss) by done. split; [done|]. cbn [snd log].
    eexists (_ ++ _). by rewrite <- app_assoc.
Qed.

Lemma run_cases (h : host) (ss : gmap string (list message)) :
  ((run h ss).1 = Stopped ∧
   (¬ ∃ c, starts h c) ∧
   run_state h ss = ss ∧
   ∃ errs, errs ≠ [] ∧ run_log h ss = (st_error <$> errs) ++ [st_stop])
  ∨
  ((run h ss).1 = Ret tt ∧
   (∃ c, starts h c) ∧
   ∃ body, run_log h ss = header_events ++ body ++ sidebar_events).
Proof.
  destruct (truthy (getenv (environ h) "GEMINI_API_KEY")) eqn:Hk.
  - apply truthy_inv in Hk as (k & Hk & Hne). unfold getenv in Hk.
    destruct (genai_Client h k) as [e|c] eqn:Hc.
    + left. unfold run_state, run_log.
      rewrite (run_client_fails h k e ss) by done.
      split; [done|]. split; [|split; [done|]].
      * intros (c & k' & Hk' & _ & Hc'). rewrite Hk in Hk'.
        injection Hk' as <-. by rewrite Hc in Hc'.
      * eexists [_]. split; [done|reflexivity].
    + right. assert (Hs : starts h c) by (by exists k).
      destruct (run_completes h c ss Hs) as [? ?]. eauto.
  - left. unfold run_state, run_log. rewrite (run_no_key h ss Hk).
    split; [done|]. split; [|split; [done|]].
    + intros (c & k & Hk' & Hne & _). unfold getenv in Hk. rewrite Hk' in Hk.
      by rewrite truthy_Some in Hk.
    + eexists [_; _]. split; [done|reflexivity].
Qed.

(** ** Runs without a prompt, and the replay of the transcript *)

Lemma falsy_input o : o = None ∨ o = Some "" → truthy o = false.
Proof. by intros [->| ->]. Qed.

(** X4. A run in which [st.chat_input] returns nothing, or the empty
    string, only seeds the transcript if it is missing: an existing
    transcript is left as it is, no request is sent and the placeholder is
    never written. *)
Theorem idle_run_changes_nothing (h : host) (c : Client)
    (ss : gmap string (list message)) :
  starts h c → chat_input h = None ∨ chat_input h = Some "" →
  transcript (run_state h ss) = Some (default [welcome] (transcript ss)) ∧
  (is_Some (transcript ss) → run_state h ss = ss) ∧
  network_calls (run_log h ss) = [] ∧
  placeholder_bodies (run_log h ss) = [].
Proof.
  intros Hs Hp. apply falsy_input in Hp.
  split; [by apply (transcript_run_idle h c)|].
  unfold run_state, run_log. rewrite (run_idle h c ss) by done. cbn [snd log session_state].
  split; [|split].
  - intros [l E]. unfold seeded, contains.
    by rewrite bool_decide_eq_true_2 by (by exists l).
  - by rewrite !network_calls_app, network_calls_display.
  - by rewrite !placeholder_bodies_app, placeholder_bodies_display.
Qed.

Lemma idle_run_changes_nothing_witness :
  transcript (run_state (ok_host StreamEnd (Some "")) {[ "messages" := two_turns ]})
    = Some (default [welcome] (transcript {[ "messages" := two_turns ]})) ∧
  (is_Some (transcript {[ "messages" := two_turns ]}) →
   run_state (ok_host StreamEnd (Some "")) {[ "messages" := two_turns ]}
     = {[ "messages" := two_turns ]}) ∧
  network_calls (run_log (ok_host StreamEnd (Some "")) {[ "messages" := two_turns ]}) = [] ∧
  placeholder_bodies (run_log (ok_host StreamEnd (Some "")) {[ "messages" := two_turns ]}) = [].
Proof.
  apply (idle_run_changes_nothing (ok_host StreamEnd (Some ""))
           (MkClient (λ _, StreamEnd)) {[ "messages" := two_turns ]}).
  - starts_with "k".
  - right. reflexivity.
Defined.




(** ** The session state outside the transcript *)

Lemma lookup_seeded_ne ss k : k ≠ "messages" → seeded ss !! k = ss !! k.
Proof.
  intros Hk. unfold seeded. destruct (contains "messages" ss); [done|].
  by rewrite lookup_insert_ne.
Qed.

(** X6. The script writes no key of the session state other than
    "messages": whatever else the session holds is the same after a run,
    whether the run halts, idles or handles a submission. *)
Theorem run_keeps_other_keys (h : host) (ss : gmap string (list message))
    (k : string) :
  k ≠ "messages" → run_state h ss !! k = ss !! k.
Proof.
  intros Hk. destruct (startup_cases h) as [Hhalt|[c Hs]].
  - by rewrite (proj2 (Hhalt ss)).
  - unfold run_state. destruct (truthy (chat_input h)) eqn:Hp.
    + apply truthy_inv in Hp as (p & Hp & Hne).
      rewrite (run_submit h c ss p) by done. cbn [snd session_state].
      rewrite lookup_insert_ne by done. by apply lookup_seeded_ne.
    + rewrite (run_idle h c ss) by done. cbn [snd session_state].
      by apply lookup_seeded_ne.
Qed.

Lemma run_keeps_other_keys_witness :
  run_state hello_host {[ "draft" := two_turns ]} !! "draft"
  = ({[ "draft" := two_turns ]} : gmap string (list message)) !! "draft".
Proof.
  apply (run_keeps_other_keys hello_host {[ "draft" := two_turns ]} "draft").
  discriminate.
Defined.

(** ** The text of a streamed reply *)

Lemma append_nil_r (s : string) : s +:+ "" = s.
Proof.
  induction s as [|a s IH]; [reflexivity|].
  change (String a (s +:+ "") = String a s). by rewrite IH.
Qed.

Lemma falsy_text t : truthy t = false → default "" t = "".
Proof.
  destruct t as [s|]; simpl; [|done].
  destruct (String.eqb_spec s ""); [done|discriminate].
Qed.

Lemma accumulated_stream_of chunks tail acc :
  accumulated (stream_of chunks tail) acc =
    accumulated tail (acc +:+ joined (default "" <$> chunks)).
Proof.
  revert acc. induction chunks as [|t rest IH]; intros acc; simpl.
  - by rewrite append_nil_r.
  - rewrite IH. f_equal.
    change (joined (default "" t :: (default "" <$> rest)))
      with (default "" t +:+ joined (default "" <$> rest)).
    rewrite <- append_assoc. f_equal.
    destruct (truthy t) eqn:Ht; [done|].
    by rewrite (falsy_text t Ht), append_nil_r.
Qed.

Lemma fragments_stream_of ts : fragments ts = stream_of (Some <$> ts) StreamEnd.
Proof. induction ts as [|t ts IH]; [done|]. simpl. f_equal. exact IH. Qed.

Lemma default_Some_fmap (ts : list string) : default "" <$> (Some <$> ts) = ts.
Proof. induction ts as [|t ts IH]; [done|]. rewrite !fmap_cons. by rewrite IH. Qed.

Lemma stream_events_fragment t rest acc :
  t ≠ "" →
  stream_events (StreamChunk (Some t) rest) acc =
    message_placeholder_markdown ((acc +:+ t) +:+ cursor)
      :: stream_events rest (acc +:+ t).
Proof.
  intros Ht. simpl. destruct (String.eqb_spec t ""); [done|reflexivity].
Qed.

Lemma placeholder_bodies_fragments ts tail acc :
  Forall (λ t, t ≠ "") ts →
  placeholder_bodies (stream_events (stream_of (Some <$> ts) tail) acc) =
    ((λ k, (acc +:+ joined (take (S k) ts)) +:+ cursor) <$> seq 0 (length ts))
      ++ placeholder_bodies (stream_events tail (acc +:+ joined ts)).
Proof.
  intros Hts. revert acc. induction Hts as [|t ts Ht _ IH]; intros acc.
  - simpl. by rewrite append_nil_r.
  - change (stream_of (Some <$> t :: ts) tail)
      with (StreamChunk (Some t) (stream_of (Some <$> ts) tail)).
    rewrite (stream_events_fragment t _ acc Ht).
    change (placeholder_bodies (message_placeholder_markdown ?b :: ?l))
      with (b :: placeholder_bodies l).
    rewrite IH. simpl length.
    change (seq 0 (S (length ts))) with (0 :: seq 1 (length ts)).
    rewrite fmap_cons, <- fmap_S_seq, <- list_fmap_compose.
    rewrite <- app_comm_cons. f_equal.
    + change (joined (take 1 (t :: ts))) with (t +:+ "").
      by rewrite append_nil_r.
    + f_equal.
      * apply list_fmap_ext. intros i k _. unfold compose.
        change (joined (take (S (S k)) (t :: ts)))
          with (t +:+ joined (take (S k) ts)).
        by rewrite (append_assoc acc t).
      * change (joined (t :: ts)) with (t +:+ joined ts).
        by rewrite (append_assoc acc t).
Qed.

Lemma last_progress_bodies ts :
  ts ≠ [] → last (progress_bodies ts) = Some (joined ts +:+ cursor).
Proof.
  intros Hne. unfold progress_bodies.
  destruct (length ts) as [|n] eqn:Hn.
  - by destruct ts.
  - rewrite seq_S, fmap_app. simpl. rewrite last_snoc.
    rewrite <- Hn. by rewrite firstn_all.
Qed.

(** X7. When the stream ends without raising, the content stored for the
    assistant is the texts of all chunks put together in order of arrival
    (a chunk without text adds nothing), and that same string is what the
    placeholder shows in the end. *)
Theorem streamed_text_is_stored (h : host) (c : Client)
    (ss : gmap string (list message)) (p : string)
    (chunks : list (option string)) :
  starts h c → chat_input h = Some p → p ≠ "" →
  (∀ req, generate_content_stream c req = stream_of chunks StreamEnd) →
  transcript (run_state h ss) =
    Some (default [welcome] (transcript ss)
            ++ [Message "user" p;
                Message "assistant" (joined (default "" <$> chunks))]) ∧
  displayed (run_log h ss) = Some (joined (default "" <$> chunks)).
Proof.
  intros Hs Hp Hne Hst.
  assert (A : accumulated (stream_of chunks StreamEnd) "" = joined (default "" <$> chunks)).
  { rewrite accumulated_stream_of. reflexivity. }
  split.
  - rewrite (transcript_run_submit h c ss p) by done.
    unfold reply. rewrite Hst, stream_error_stream_of, A.
    by rewrite <- app_assoc.
  - unfold displayed. rewrite (placeholder_bodies_run_submit h c ss p) by done.
    unfold closing_event. rewrite Hst, stream_error_stream_of, A.
    apply last_snoc.
Qed.

Lemma streamed_text_is_stored_witness :
  transcript (run_state (ok_host (stream_of [Some "a"; None; Some "b"] StreamEnd) (Some "hi")) ∅) =
    Some (default [welcome] (transcript ∅)
            ++ [Message "user" "hi";
                Message "assistant" (joined (default "" <$> [Some "a"; None; Some "b"]))]) ∧
  displayed (run_log (ok_host (stream_of [Some "a"; None; Some "b"] StreamEnd) (Some "hi")) ∅)
    = Some (joined (default "" <$> [Some "a"; None; Some "b"])).
Proof.
  apply (streamed_text_is_stored
           (ok_host (stream_of [Some "a"; None; Some "b"] StreamEnd) (Some "hi"))
           (MkClient (λ _, stream_of [Some "a"; None; Some "b"] StreamEnd)) ∅ "hi"
           [Some "a"; None; Some "b"]).
  - starts_with "k".
  - reflexivity.
  - discriminate.
  - intros req. reflexivity.
Defined.

(** X8. While non-empty fragments arrive, the placeholder is rewritten
    once per fragment with everything received so far followed by the
    cursor; after the last fragment it is rewritten once more with the full
    text and no cursor. *)
Theorem placeholder_progress (h : host) (c : Client)
    (ss : gmap string (list message)) (p : string) (ts : list string) :
  starts h c → chat_input h = Some p → p ≠ "" →
  Forall (λ t, t ≠ "") ts →
  (∀ req, generate_content_stream c req = fragments ts) →
  placeholder_bodies (run_log h ss) =
    ((λ k, joined (take (S k) ts) +:+ cursor) <$> seq 0 (length ts))
      ++ [joined ts].
Proof.
  intros Hs Hp Hne Hts Hst.
  rewrite (placeholder_bodies_run_submit h c ss p) by done.
  unfold closing_event. rewrite Hst, fragments_stream_of, stream_error_stream_of.
  rewrite accumulated_stream_of, default_Some_fmap.
  rewrite (placeholder_bodies_fragments ts StreamEnd "" Hts).
  simpl. rewrite app_nil_r. reflexivity.
Qed.

Lemma placeholder_progress_witness :
  placeholder_bodies (run_log hello_host ∅) =
    ((λ k, joined (take (S k) ["Hel"; "lo"; " world"]) +:+ cursor)
       <$> seq 0 (length ["Hel"; "lo"; " world"]))
      ++ [joined ["Hel"; "lo"; " world"]].
Proof.
  apply (placeholder_progress hello_host
           (MkClient (λ _, fragments ["Hel"; "lo"; " world"])) ∅ "hi"
           ["Hel"; "lo"; " world"]).
  - starts_with "k".
  - reflexivity.
  - discriminate.
  - repeat (constructor; [discriminate|]). constructor.
  - intros req. reflexivity.
Defined.

(** X9. When the stream raises after some non-empty fragments, the final
    rewrite of the placeholder never happens: the placeholder keeps the
    partial text with the cursor still attached, while the transcript gets
    the error message.  If the stream raises before any fragment, the
    placeholder is never written at all. *)
Theorem failure_leaves_partial_text (h : host) (c : Client)
    (ss : gmap string (list message)) (p : string) (ts : list string) (e : exn) :
  starts h c → chat_input h = Some p → p ≠ "" →
  Forall (λ t, t ≠ "") ts →
  (∀ req, generate_content_stream c req = stream_of (Some <$> ts) (StreamRaise e)) →
  placeholder_bodies (run_log h ss) =
    ((λ k, joined (take (S k) ts) +:+ cursor) <$> seq 0 (length ts)) ∧
  displayed (run_log h ss) =
    match ts with [] => None | _ => Some (joined ts +:+ cursor) end.
Proof.
  intros Hs Hp Hne Hts Hst.
  assert (B : placeholder_bodies (run_log h ss) = progress_bodies ts).
  { rewrite (placeholder_bodies_run_submit h c ss p) by done.
    unfold closing_event. rewrite Hst, stream_error_stream_of.
    rewrite (placeholder_bodies_fragments ts (StreamRaise e) "" Hts).
    simpl. rewrite !app_nil_r. reflexivity. }
  split; [exact B|]. unfold displayed. rewrite B.
  destruct ts as [|t ts']; [reflexivity|]. by apply last_progress_bodies.
Qed.

Lemma failure_leaves_partial_text_witness :
  placeholder_bodies (run_log failing_host ∅) =
    ((λ k, joined (take (S k) ["Hel"; "lo"]) +:+ cursor) <$> seq 0 (length ["Hel"; "lo"])) ∧
  displayed (run_log failing_host ∅) =
    match ["Hel"; "lo"] with [] => None | _ => Some (joined ["Hel"; "lo"] +:+ cursor) end.
Proof.
  apply (failure_leaves_partial_text failing_host
           (MkClient (λ _, stream_of [Some "Hel"; Some "lo"]
                             (StreamRaise (Exn APIError "429 quota"))))
           ∅ "hi" ["Hel"; "lo"] (Exn APIError "429 quota")).
  - starts_with "k".
  - reflexivity.
  - discriminate.
  - repeat (constructor; [discriminate|]). constructor.
  - intros req. reflexivity.
Defined.

Example failing_run_display :
  displayed (run_log failing_host ∅) = Some "Hello▌".
Proof. vm_compute. reflexivity. Qed.

(** ** Requests over a session *)

Lemma network_calls_errors errs :
  network_calls ((st_error <$> errs) ++ [st_stop]) = [].
Proof. induction errs as [|e errs IH]; [done|exact IH]. Qed.

Lemma network_calls_run_idle h c ss :
  starts h c → truthy (chat_input h) = false →
  network_calls (run_log h ss) = [].
Proof.
  intros Hs Hp. unfold run_log. rewrite (run_idle h c ss) by done. cbn [snd log].
  by rewrite !network_calls_app, network_calls_display.
Qed.

Lemma network_calls_run h ss :
  network_calls (run_log h ss) = [] ∨
  ∃ history, network_calls (run_log h ss) = [the_request history].
Proof.
  destruct (run_cases h ss) as [(_ & _ & _ & errs & _ & Hlog)|(_ & [c Hs] & _)].
  - left. rewrite Hlog. apply network_calls_errors.
  - destruct (truthy (chat_input h)) eqn:Hp.
    + apply truthy_inv in Hp as (p & Hp & Hne). right. eexists.
      by apply (network_calls_run_submit h c).
    + left. by apply (network_calls_run_idle h c).
Qed.

Lemma network_calls_session_fixed hs ss :
  Forall (λ r, model r = MODEL_NAME ∧
               config_system_instruction r = SYSTEM_INSTRUCTION)
         (network_calls (session_log hs ss)).
Proof.
  revert ss. induction hs as [|h hs IH]; intros ss; simpl; [constructor|].
  rewrite network_calls_app. apply Forall_app. split; [|apply IH].
  destruct (network_calls_run h ss) as [->|[history ->]]; [constructor|].
  by repeat constructor.
Qed.

(** X10. Every request of any session names the fixed model and carries
    the fixed system instruction.  Over a session in which every run gets
    past startup and runs to its end, the script sends exactly one request
    per submitted prompt and none otherwise. *)
Theorem requests_per_session (hs : list host) (ss : gmap string (list message)) :
  Forall (λ r, model r = "gemini-2.5-flash" ∧
               config_system_instruction r = SYSTEM_INSTRUCTION)
         (network_calls (session_log hs ss)) ∧
  (Forall (λ h, ∃ c, starts h c) hs →
   length (network_calls (session_log hs ss)) = submissions hs).
Proof.
  split; [apply network_calls_session_fixed|]. intros Hhs.
  revert ss. induction Hhs as [|h hs [c Hs] _ IH]; intros ss; simpl; [done|].
  rewrite network_calls_app, length_app, IH.
  unfold submissions. rewrite filter_cons.
  destruct (truthy (chat_input h)) eqn:Hp.
  - apply truthy_inv in Hp as (p & Hp & Hne).
    rewrite (network_calls_run_submit h c ss p) by done.
    by rewrite decide_True.
  - rewrite (network_calls_run_idle h c ss) by done.
    by rewrite decide_False.
Qed.

Lemma requests_per_session_witness :
  length (network_calls (session_log three_runs ∅)) = submissions three_runs.
Proof.
  apply (proj2 (requests_per_session three_runs ∅)).
  repeat (constructor; [eexists; starts_with "k"|]). constructor.
Defined.

Example requests_of_mixed_session :
  network_calls (session_log two_failures_then_ok ∅) =
    [Request MODEL_NAME
       [MkContent "model" [Part (content welcome)]; MkContent "user" [Part "first"]]
       SYSTEM_INSTRUCTION;
     Request MODEL_NAME
       [MkContent "model" [Part (content welcome)]; MkContent "user" [Part "first"];
        MkContent "model" [Part (unexpected_error_prefix +:+ "timed out")];
        MkContent "user" [Part "second"]]
       SYSTEM_INSTRUCTION].
Proof. vm_compute. reflexivity. Qed.

(** X11. The first request of a session opens with the welcome turn under
    role "model", followed by the prompt under role "user". *)
Theorem first_request_opens_with_welcome (h : host) (c : Client)
    (ss : gmap string (list message)) (p : string) :
  starts h c → chat_input h = Some p → p ≠ "" → transcript ss = None →
  network_calls (run_log h ss) =
    [Request MODEL_NAME
       [MkContent "model" [Part (content welcome)]; MkContent "user" [Part p]]
       SYSTEM_INSTRUCTION].
Proof.
  intros Hs Hp Hne E. rewrite (network_calls_run_submit h c ss p) by done.
  by rewrite E.
Qed.

Lemma first_request_opens_with_welcome_witness :
  network_calls (run_log hello_host ∅) =
    [Request MODEL_NAME
       [MkContent "model" [Part (content welcome)]; MkContent "user" [Part "hi"]]
       SYSTEM_INSTRUCTION].
Proof.
  apply (first_request_opens_with_welcome hello_host
           (MkClient (λ _, fragments ["Hel"; "lo"; " world"])) ∅ "hi").
  - starts_with "k".
  - reflexivity.
  - discriminate.
  - reflexivity.
Defined.

(** X12. An error message stored by a failed submission is part of the
    conversation from then on: the request of the next submission carries
    it under role "model", between the prompt that failed and the new
    prompt. *)
Theorem error_turn_is_sent_back (h1 h2 : host) (c1 c2 : Client)
    (ss : gmap string (list message)) (p1 p2 : string)
    (chunks : list (option string)) (e : exn) :
  starts h1 c1 → chat_input h1 = Some p1 → p1 ≠ "" →
  (∀ req, generate_content_stream c1 req = stream_of chunks (StreamRaise e)) →
  starts h2 c2 → chat_input h2 = Some p2 → p2 ≠ "" →
  ∃ earlier,
    network_calls (run_log h2 (run_state h1 ss)) =
      [Request MODEL_NAME
         (earlier ++
          [MkContent "user" [Part p1];
           MkContent "model"
             [Part ((if is_APIError e then api_error_prefix
                     else unexpected_error_prefix) +:+ exc_str e)];
           MkContent "user" [Part p2]])
         SYSTEM_INSTRUCTION].
Proof.
  intros Hs1 Hp1 Hne1 Hst Hs2 Hp2 Hne2.
  exists (rendered (default [welcome] (transcript ss))).
  rewrite (network_calls_run_submit h2 c2 _ p2) by done.
  rewrite (transcript_run_submit h1 c1 ss p1) by done.
  unfold reply. rewrite Hst, stream_error_stream_of. simpl.
  rewrite !rendered_app, <- !app_assoc. reflexivity.
Qed.

Lemma error_turn_is_sent_back_witness :
  ∃ earlier,
    network_calls (run_log hello_host (run_state failing_host ∅)) =
      [Request MODEL_NAME
         (earlier ++
          [MkContent "user" [Part "hi"];
           MkContent "model"
             [Part ((if is_APIError (Exn APIError "429 quota") then api_error_prefix
                     else unexpected_error_prefix) +:+ exc_str (Exn APIError "429 quota"))];
           MkContent "user" [Part "hi"]])
         SYSTEM_INSTRUCTION].
Proof.
  apply (error_turn_is_sent_back failing_host hello_host
           (MkClient (λ _, stream_of [Some "Hel"; Some "lo"]
                             (StreamRaise (Exn APIError "429 quota"))))
           (MkClient (λ _, fragments ["Hel"; "lo"; " world"]))
           ∅ "hi" "hi" [Some "Hel"; Some "lo"] (Exn APIError "429 quota")).
  - starts_with "k".
  - reflexivity.
  - discriminate.
  - intros req. reflexivity.
  - starts_with "k".
  - reflexivity.
  - discriminate.
Defined.

(** ** Transcripts over a session *)

Lemma exchange_roles_snoc n :
  exchange_roles n ++ ["user"; "assistant"] = exchange_roles (S n).
Proof.
  unfold exchange_roles. induction n as [|n IH]; [done|].
  change (mjoin (replicate (S n) ["user"; "assistant"]))
    with (["user"; "assistant"] ++ mjoin (replicate n ["user"; "assistant"])).
  rewrite <- app_assoc, IH. reflexivity.
Qed.

Lemma exchange_roles_known n :
  Forall (λ r, r = "user" ∨ r = "assistant") (exchange_roles n).
Proof.
  unfold exchange_roles. induction n as [|n IH]; [constructor|].
  simpl. constructor; [by left|]. constructor; [by right|]. exact IH.
Qed.

(** What one run does to the transcript, in every case. *)
Lemma run_transcript_cases h ss :
  transcript (run_state h ss) = transcript ss ∨
  transcript (run_state h ss) = Some (default [welcome] (transcript ss)) ∨
  ∃ p r, chat_input h = Some p ∧ p ≠ "" ∧
    transcript (run_state h ss) =
      Some (default [welcome] (transcript ss)
              ++ [Message "user" p; Message "assistant" r]).
Proof.
  destruct (startup_cases h) as [Hhalt|[c Hs]].
  - left. by rewrite (proj2 (Hhalt ss)).
  - right. destruct (truthy (chat_input h)) eqn:Hp.
    + apply truthy_inv in Hp as (p & Hp & Hne). right. exists p. eexists.
      rewrite (transcript_run_submit h c ss p) by done.
      rewrite <- app_assoc. done.
    + left. by apply (transcript_run_idle h c).
Qed.

Lemma run_alternates h ss : alternates ss → alternates (run_state h ss).
Proof.
  intros Hss l El.
  destruct (run_transcript_cases h ss) as [E|[E|(p & r & _ & _ & E)]];
    rewrite E in El.
  - by apply Hss.
  - injection El as <-. destruct (transcript ss) as [l0|] eqn:E0; simpl.
    + by apply Hss.
    + by exists 0.
  - injection El as <-. rewrite fmap_app.
    destruct (transcript ss) as [l0|] eqn:E0; simpl default.
    + destruct (Hss l0 E0) as [n Hn]. exists (S n).
      rewrite Hn, <- exchange_roles_snoc. reflexivity.
    + by exists 1.
Qed.

Lemma session_alternates hs ss : alternates ss → alternates (session hs ss).
Proof.
  revert ss. induction hs as [|h hs IH]; intros ss Hss; simpl; [done|].
  apply IH. by apply run_alternates.
Qed.






(** ** The order of effects in a submission *)

Lemma stream_events_updates st acc :
  Forall (λ ev, ∃ b, ev = message_placeholder_markdown b) (stream_events st acc).
Proof.
  revert acc. induction st as [|t rest IH|e]; intros acc; simpl; [constructor| |constructor].
  destruct (truthy t); [|apply IH]. constructor; [eauto|apply IH].
Qed.

(** X15. A submission proceeds in a fixed order: page header, replay of
    the stored transcript, chat input, the user's prompt in a user bubble,
    an assistant bubble with an empty placeholder, and only then the
    request; after the request come placeholder updates and at most one
    final error message, and the sidebar is rendered last.  So the prompt
    is on screen before the client is called, even when the call fails. *)
Theorem submission_order (h : host) (c : Client)
    (ss : gmap string (list message)) (p : string) :
  starts h c → chat_input h = Some p → p ≠ "" →
  ∃ req updates,
    run_log h ss =
      header_events
        ++ (default [welcome] (transcript ss)
              ≫= λ m, [st_chat_message (role m); st_markdown (content m)])
        ++ [st_chat_input "파이썬 코드를 요청하거나 오류를 물어보세요...";
            st_chat_message "user"; st_markdown p;
            st_chat_message "assistant"; st_empty;
            models_generate_content_stream req]
        ++ updates ++ sidebar_events ∧
    Forall (λ ev, ∃ b, ev = message_placeholder_markdown b ∨ ev = st_error b) updates.
Proof.
  intros Hs Hp Hne. unfold run_log. rewrite (run_submit h c ss p) by done.
  cbn [snd log]. unfold submit_events.
  set (l1 := default [welcome] (transcript ss) ++ [Message "user" p]).
  set (st := generate_content_stream c (the_request (rendered l1))).
  exists (the_request (rendered l1)), (stream_events st "" ++ [closing_event st]).
  split.
  - rewrite <- !app_assoc. reflexivity.
  - apply Forall_app. split.
    + eapply Forall_impl; [apply stream_events_updates|].
      intros ev [b ->]. eauto.
    + constructor; [|constructor]. unfold closing_event.
      destruct (stream_error _); eauto.
Qed.

Lemma submission_order_witness :
  ∃ req updates,
    run_log failing_host ∅ =
      header_events
        ++ (default [welcome] (transcript ∅)
              ≫= λ m, [st_chat_message (role m); st_markdown (content m)])
        ++ [st_chat_input "파이썬 코드를 요청하거나 오류를 물어보세요...";
            st_chat_message "user"; st_markdown "hi";
            st_chat_message "assistant"; st_empty;
            models_generate_content_stream req]
        ++ updates ++ sidebar_events ∧
    Forall (λ ev, ∃ b, ev = message_placeholder_markdown b ∨ ev = st_error b) updates.
Proof.
  apply (submission_order failing_host
           (MkClient (λ _, stream_of [Some "Hel"; Some "lo"]
                             (StreamRaise (Exn APIError "429 quota")))) ∅ "hi").
  - starts_with "k".
  - reflexivity.
  - discriminate.
Defined.

(** * Every assignment to the session state *)

(** ** Running a tree *)

Lemma exec_bind {A B} irq (p : Tree.prog A) (f : A → Tree.prog B) w :
  Tree.exec irq (p ≫= f) w =
    match Tree.exec irq p w with
    | (Tree.Finished a, w') => Tree.exec irq (f a) w'
    | (Tree.Uncaught e, w') => (Tree.Uncaught e, w')
    | (Tree.Halted, w') => (Tree.Halted, w')
    | (Tree.Interrupted, w') => (Tree.Interrupted, w')
    end.
Proof.
  unfold mbind, Tree.prog_bind. revert w.
  induction p as [a|e| |ev k IH|k IH|l k IH]; intros w; simpl; try reflexivity.
  - destruct (Tree.is_streamlit ev && irq (log (Tree.now w))); [reflexivity|apply IH].
  - apply IH.
  - apply IH.
Qed.

Lemma exec_try_except {A} irq (p : Tree.prog A) (h : exn → Tree.prog A) w :
  Tree.exec irq (Tree.try_except p h) w =
    match Tree.exec irq p w with
    | (Tree.Uncaught e, w') => Tree.exec irq (h e) w'
    | r => r
    end.
Proof.
  revert w.
  induction p as [a|e| |ev k IH|k IH|l k IH]; intros w; simpl; try reflexivity.
  - destruct (Tree.is_streamlit ev && irq (log (Tree.now w))); [reflexivity|apply IH].
  - apply IH.
  - apply IH.
Qed.

(** A run with requests pending is a run without, cut short. *)
Lemma exec_interrupted_or_same {A} irq (p : Tree.prog A) w :
  (Tree.exec irq p w).1 = Tree.Interrupted ∨
  Tree.exec irq p w = Tree.exec Tree.never p w.
Proof.
  revert w.
  induction p as [a|e| |ev k IH|k IH|l k IH]; intros w; simpl; try (by right).
  - unfold Tree.never at 1.
    destruct (irq (log (Tree.now w))), (Tree.is_streamlit ev); simpl;
      [by left|apply IH..].
  - apply IH.
  - apply IH.
Qed.

Lemma exec_never_runs {A} irq (p : Tree.prog A) w :
  (∀ l, irq l = false) → Tree.exec irq p w = Tree.exec Tree.never p w.
Proof.
  intros Hirq. revert w.
  induction p as [a|e| |ev k IH|k IH|l k IH]; intros w; simpl; try reflexivity.
  - rewrite Hirq. unfold Tree.never at 1.
    destruct (Tree.is_streamlit ev); simpl; apply IH.
  - apply IH.
  - apply IH.
Qed.

(** ** The tree and the monad agree *)

Lemma agrees_ret {A} (a : A) : agrees (mret a) (mret a).
Proof. by intros w. Qed.

Lemma agrees_raise {A} e : agrees (@Tree.raise A e) (raise e).
Proof. by intros w. Qed.

Lemma agrees_lift {A} (r : exn + A) : agrees (Tree.lift r) (lift r).
Proof. destruct r; [apply agrees_raise|apply agrees_ret]. Qed.

Lemma agrees_emit ev : agrees (Tree.emit ev) (emit ev).
Proof. intros w. simpl. unfold Tree.never. by destruct (Tree.is_streamlit ev). Qed.

Lemma agrees_stop {A} : agrees (@Tree.stop A) stop.
Proof. intros w. simpl. unfold Tree.never. done. Qed.

Lemma agrees_get_session_state : agrees Tree.get_session_state get_session_state.
Proof. by intros w. Qed.

Lemma agrees_set_messages l : agrees (Tree.set_messages l) (set_messages l).
Proof. by intros w. Qed.

Lemma agrees_get_messages : agrees Tree.get_messages get_messages.
Proof.
  intros w. unfold get_messages. simpl.
  by destruct (session_state (Tree.now w) !! "messages").
Qed.

Lemma agrees_bind {A B} (p : Tree.prog A) (m : M A)
    (f : A → Tree.prog B) (g : A → M B) :
  agrees p m → (∀ a, agrees (f a) (g a)) → agrees (p ≫= f) (m ≫= g).
Proof.
  intros Hp Hf w. rewrite exec_bind. destruct (Hp w) as [E1 E2].
  unfold mbind, M_bind.
  destruct (Tree.exec Tree.never p w) as [r w'].
  destruct (m (Tree.now w)) as [o s']. simpl in E1, E2. subst s'.
  destruct o as [a|e|]; simpl in E1; subst r; simpl; [apply Hf|done..].
Qed.

Lemma agrees_try_except {A} (p : Tree.prog A) (m : M A)
    (f : exn → Tree.prog A) (g : exn → M A) :
  agrees p m → (∀ e, agrees (f e) (g e)) →
  agrees (Tree.try_except p f) (try_except m g).
Proof.
  intros Hp Hf w. rewrite exec_try_except. destruct (Hp w) as [E1 E2].
  unfold try_except.
  destruct (Tree.exec Tree.never p w) as [r w'].
  destruct (m (Tree.now w)) as [o s']. simpl in E1, E2. subst s'.
  destruct o as [a|e|]; simpl in E1; subst r; simpl; [done|apply Hf|done].
Qed.

Create HintDb agrees.
#[global] Hint Resolve agrees_ret agrees_raise agrees_lift agrees_emit agrees_stop
  agrees_get_session_state agrees_set_messages agrees_get_messages : agrees.

Ltac agree :=
  repeat first
    [ apply agrees_bind; [|intros ?]
    | apply agrees_try_except; [|intros ?]
    | match goal with
      | |- agrees (if ?b then _ else _) (if ?b then _ else _) => destruct b
      end
    | progress cbv zeta
    | solve [auto with agrees] ].

Lemma agrees_messages_append m : agrees (Tree.messages_append m) (messages_append m).
Proof. unfold Tree.messages_append, messages_append. agree. Qed.

Lemma agrees_startup h : agrees (Tree.startup h) (startup h).
Proof. unfold Tree.startup, startup. agree. Qed.

Lemma agrees_page_header : agrees Tree.page_header page_header.
Proof. unfold Tree.page_header, page_header. agree. Qed.

Lemma agrees_init_messages : agrees Tree.init_messages init_messages.
Proof. unfold Tree.init_messages, init_messages. agree. Qed.

Lemma agrees_display_loop msgs : agrees (Tree.display_loop msgs) (display_loop msgs).
Proof.
  induction msgs as [|m rest IH]; cbn [Tree.display_loop display_loop]; agree.
Qed.

Lemma agrees_display_messages : agrees Tree.display_messages display_messages.
Proof.
  unfold Tree.display_messages, display_messages. agree. apply agrees_display_loop.
Qed.

Lemma agrees_history_loop msgs history :
  agrees (Tree.history_loop msgs history) (history_loop msgs history).
Proof.
  revert history. induction msgs as [|m rest IH]; intros history;
    cbn [Tree.history_loop history_loop]; agree.
Qed.

Lemma agrees_render : agrees Tree.render render.
Proof. unfold Tree.render, render. agree. apply agrees_history_loop. Qed.

Lemma agrees_consume st acc : agrees (Tree.consume st acc) (consume st acc).
Proof.
  revert acc. induction st as [|t rest IH|e]; intros acc;
    cbn [Tree.consume consume]; agree.
Qed.

Lemma agrees_respond c history : agrees (Tree.respond c history) (respond c history).
Proof. unfold Tree.respond, respond. agree. apply agrees_consume. Qed.

#[global] Hint Resolve agrees_messages_append agrees_display_loop
  agrees_history_loop agrees_consume agrees_render agrees_respond : agrees.

Lemma agrees_handle_input h c : agrees (Tree.handle_input h c) (handle_input h c).
Proof. unfold Tree.handle_input, handle_input. agree. Qed.

Lemma agrees_sidebar : agrees Tree.sidebar sidebar.
Proof. unfold Tree.sidebar, sidebar. agree. Qed.

#[global] Hint Resolve agrees_startup agrees_page_header agrees_init_messages
  agrees_display_messages agrees_handle_input agrees_sidebar : agrees.

Lemma agrees_app h : agrees (Tree.app h) (app h).
Proof. unfold Tree.app, app. agree. Qed.

(** A run of the tree that nothing interrupts ends as [run] does. *)
Lemma tree_run_never h ss :
  (Tree.run h Tree.never ss).1 = ending_of (run h ss).1 ∧
  Tree.now (Tree.run h Tree.never ss).2 = (run h ss).2.
Proof. apply (agrees_app h (Tree.World (State ss []) [])). Qed.

(** ** Parts of the script that assign nothing *)

Lemma keeps_ret {A} (a : A) : keeps (mret a : Tree.prog A).
Proof. by intros irq w. Qed.

Lemma keeps_raise {A} e : keeps (@Tree.raise A e).
Proof. by intros irq w. Qed.

Lemma keeps_lift {A} (r : exn + A) : keeps (Tree.lift r).
Proof. destruct r; [apply keeps_raise|apply keeps_ret]. Qed.

Lemma keeps_emit ev : keeps (Tree.emit ev).
Proof.
  intros irq w. simpl.
  by destruct (Tree.is_streamlit ev && irq (log (Tree.now w))).
Qed.

Lemma keeps_stop {A} : keeps (@Tree.stop A).
Proof.
  intros irq w. simpl.
  by destruct (irq (log (Tree.now w))).
Qed.

Lemma keeps_get_session_state : keeps Tree.get_session_state.
Proof. by intros irq w. Qed.

Lemma keeps_get_messages : keeps Tree.get_messages.
Proof.
  intros irq w. simpl. by destruct (session_state (Tree.now w) !! "messages").
Qed.

Lemma keeps_bind {A B} (p : Tree.prog A) (f : A → Tree.prog B) :
  keeps p → (∀ a, keeps (f a)) → keeps (p ≫= f).
Proof.
  intros Hp Hf irq w. rewrite exec_bind. destruct (Hp irq w) as [V S].
  destruct (Tree.exec irq p w) as [r w']. simpl in V, S.
  destruct r as [a|e| |]; simpl; try done.
  destruct (Hf a irq w') as [V' S']. by rewrite V', S'.
Qed.

Lemma keeps_try_except {A} (p : Tree.prog A) (f : exn → Tree.prog A) :
  keeps p → (∀ e, keeps (f e)) → keeps (Tree.try_except p f).
Proof.
  intros Hp Hf irq w. rewrite exec_try_except. destruct (Hp irq w) as [V S].
  destruct (Tree.exec irq p w) as [r w']. simpl in V, S.
  destruct r as [a|e| |]; simpl; try done.
  destruct (Hf e irq w') as [V' S']. by rewrite V', S'.
Qed.

Create HintDb keeps.
#[global] Hint Resolve keeps_ret keeps_raise keeps_lift keeps_emit keeps_stop
  keeps_get_session_state keeps_get_messages : keeps.

Ltac keep :=
  repeat first
    [ apply keeps_bind; [|intros ?]
    | apply keeps_try_except; [|intros ?]
    | match goal with
      | |- keeps (if ?b then _ else _) => destruct b
      end
    | progress cbv zeta
    | solve [auto with keeps] ].

Lemma keeps_startup h : keeps (Tree.startup h).
Proof. unfold Tree.startup. keep. Qed.

Lemma keeps_page_header : keeps Tree.page_header.
Proof. unfold Tree.page_header. keep. Qed.

Lemma keeps_display_loop msgs : keeps (Tree.display_loop msgs).
Proof. induction msgs as [|m rest IH]; cbn [Tree.display_loop]; keep. Qed.

Lemma keeps_history_loop msgs history : keeps (Tree.history_loop msgs history).
Proof.
  revert history. induction msgs as [|m rest IH]; intros history;
    cbn [Tree.history_loop]; keep.
Qed.

Lemma keeps_consume st acc : keeps (Tree.consume st acc).
Proof.
  revert acc. induction st as [|t rest IH|e]; intros acc; cbn [Tree.consume]; keep.
Qed.

#[global] Hint Resolve keeps_display_loop keeps_history_loop keeps_consume : keeps.

Lemma keeps_display_messages : keeps Tree.display_messages.
Proof. unfold Tree.display_messages. keep. Qed.

Lemma keeps_render : keeps Tree.render.
Proof. unfold Tree.render. keep. Qed.

Lemma keeps_respond c history : keeps (Tree.respond c history).
Proof. unfold Tree.respond. keep. Qed.

Lemma keeps_sidebar : keeps Tree.sidebar.
Proof. unfold Tree.sidebar. keep. Qed.

(** ** Parts of the script that append *)

Lemma default_last_cons {A} (s x : A) l :
  default s (last (x :: l)) = default x (last l).
Proof. rewrite last_cons. by destruct (last l). Qed.

Lemma chain_app s l1 l2 :
  chain s l1 → chain (default s (last l1)) l2 → chain s (l1 ++ l2).
Proof.
  revert s. induction l1 as [|x l1 IH]; intros s H1 H2; simpl in *; [done|].
  destruct H1 as [Hx H1]. split; [done|]. apply IH; [done|].
  by rewrite default_last_cons in H2.
Qed.

Lemma default_last_app {A} (s : A) l1 l2 :
  default s (last (l1 ++ l2)) = default (default s (last l1)) (last l2).
Proof. rewrite last_app. by destruct (last l2). Qed.

Lemma keeps_grows {A} (p : Tree.prog A) : keeps p → grows p.
Proof.
  intros Hp irq w. destruct (Hp irq w) as [V S]. exists [].
  by rewrite app_nil_r.
Qed.

Lemma grows_bind {A B} (p : Tree.prog A) (f : A → Tree.prog B) :
  grows p → (∀ a, grows (f a)) → grows (p ≫= f).
Proof.
  intros Hp Hf irq w. rewrite exec_bind.
  destruct (Hp irq w) as (n1 & V1 & C1 & S1).
  destruct (Tree.exec irq p w) as [r w']. simpl in V1, S1.
  destruct r as [a|e| |]; simpl; try (by exists n1).
  destruct (Hf a irq w') as (n2 & V2 & C2 & S2).
  exists (n1 ++ n2). split; [|split].
  - by rewrite V2, V1, app_assoc.
  - apply chain_app; [done|]. by rewrite <- S1.
  - by rewrite S2, S1, default_last_app.
Qed.

Lemma grows_init_messages : grows Tree.init_messages.
Proof.
  intros irq w. unfold Tree.init_messages. simpl.
  unfold contains.
  destruct (session_state (Tree.now w) !! "messages") as [l|] eqn:E.
  - rewrite bool_decide_eq_true_2 by eauto. simpl. exists [].
    by rewrite app_nil_r.
  - rewrite bool_decide_eq_false_2 by (by intros [? ?]). simpl.
    eexists [_]. split; [reflexivity|]. split; [|reflexivity].
    split; [|done]. unfold appends, transcript. rewrite E.
    apply lookup_insert_eq.
Qed.

Lemma grows_messages_append m :
  role m = "user" ∨ role m = "assistant" → grows (Tree.messages_append m).
Proof.
  intros Hm irq w. unfold Tree.messages_append. simpl.
  destruct (session_state (Tree.now w) !! "messages") as [l|] eqn:E; simpl.
  - eexists [_]. split; [reflexivity|]. split; [|reflexivity].
    split; [|done]. unfold appends, transcript. rewrite E.
    exists m. split; [done|]. apply lookup_insert_eq.
  - exists []. by rewrite app_nil_r.
Qed.

Lemma grows_handle_input h c : grows (Tree.handle_input h c).
Proof.
  unfold Tree.handle_input.
  apply grows_bind; [apply keeps_grows, keeps_emit|intros _].
  destruct (truthy (chat_input h)); [|apply keeps_grows, keeps_ret]. cbv zeta.
  apply grows_bind; [apply grows_messages_append; by left|intros _].
  apply grows_bind; [apply keeps_grows, keeps_emit|intros _].
  apply grows_bind; [apply keeps_grows, keeps_emit|intros _].
  apply grows_bind; [apply keeps_grows, keeps_render|intros history].
  apply grows_bind; [apply keeps_grows, keeps_respond|intros full_response].
  apply grows_messages_append. by right.
Qed.

Lemma grows_app h : grows (Tree.app h).
Proof.
  unfold Tree.app.
  apply grows_bind; [apply keeps_grows, keeps_startup|intros client].
  apply grows_bind; [apply keeps_grows, keeps_page_header|intros _].
  apply grows_bind; [apply grows_init_messages|intros _].
  apply grows_bind; [apply keeps_grows, keeps_display_messages|intros _].
  apply grows_bind; [apply grows_handle_input|intros _].
  apply keeps_grows, keeps_sidebar.
Qed.

Lemma session_writes_chain rs ss : chain ss (Tree.session_writes rs ss).
Proof.
  revert ss. induction rs as [|[h irq] rs IH]; intros ss; simpl; [done|].
  destruct (grows_app h irq (Tree.World (State ss []) [])) as (new & V & C & S).
  simpl in V, C, S. fold (Tree.run h irq ss) in V, S.
  rewrite V, S. apply chain_app; [done|apply IH].
Qed.

Lemma appends_extends s1 s2 : appends s1 s2 → extends s1 s2.
Proof.
  unfold appends, extends. intros H l E. rewrite E in H.
  destruct H as (m & _ & H). eauto.
Qed.

Lemma extends_refl s : extends s s.
Proof. intros l E. exists []. by rewrite app_nil_r. Qed.

Lemma extends_trans s1 s2 s3 : extends s1 s2 → extends s2 s3 → extends s1 s3.
Proof.
  intros H12 H23 l E. destruct (H12 l E) as [e1 E1].
  destruct (H23 _ E1) as [e2 E2]. exists (e1 ++ e2). by rewrite E2, app_assoc.
Qed.

Lemma chain_step s l i x y :
  chain s l → (s :: l) !! i = Some x → (s :: l) !! S i = Some y → appends x y.
Proof.
  revert s i. induction l as [|a l IH]; intros s i C Hx Hy.
  - destruct i; simpl in Hy; discriminate.
  - destruct C as [Ca C]. destruct i as [|i].
    + simpl in Hx, Hy. by simplify_eq.
    + by apply (IH a i).
Qed.

Lemma chain_extends s l (i j : nat) x y :
  chain s l → (i ≤ j)%nat →
  (s :: l) !! i = Some x → (s :: l) !! j = Some y → extends x y.
Proof.
  revert s i j x y. induction l as [|a l IH]; intros s i j x y C Hij Hx Hy.
  - destruct i, j; simpl in Hx, Hy; try discriminate. simplify_eq.
    apply extends_refl.
  - destruct C as [Ca C]. destruct i as [|i], j as [|j]; try lia.
    + simpl in Hx, Hy. simplify_eq. apply extends_refl.
    + simpl in Hx. simplify_eq. apply extends_trans with a.
      * by apply appends_extends.
      * apply (IH a 0 j); [done|lia|done|done].
    + apply (IH a i j); [done|lia|done|done].
Qed.

(** ** The transcript over every state of a session *)

(** C8. Over any session, whatever its runs do and wherever Streamlit cuts
    a run short, every value the session state takes follows from the one
    before it by an append to the transcript: the first assignment creates
    the transcript as the single assistant welcome turn, and every later
    one adds exactly one turn after the turns already there.  Hence the
    transcript of any later state, between runs or in the middle of one,
    extends the transcript of any earlier state: no turn is removed or
    edited in place.  The tree these states are read from ends, when
    nothing interrupts it, exactly as [run] does. *)
Theorem every_write_appends (rs : list (host * (list event → bool))) :
  (∀ i s1 s2,
     Tree.session_visits rs ∅ !! i = Some s1 →
     Tree.session_visits rs ∅ !! S i = Some s2 →
     match transcript s1 with
     | None => transcript s2 = Some [welcome]
     | Some l =>
         ∃ m, (role m = "user" ∨ role m = "assistant") ∧
              transcript s2 = Some (l ++ [m])
     end) ∧
  (∀ (i j : nat) s1 s2 l,
     (i ≤ j)%nat →
     Tree.session_visits rs ∅ !! i = Some s1 →
     Tree.session_visits rs ∅ !! j = Some s2 →
     transcript s1 = Some l →
     ∃ ext, transcript s2 = Some (l ++ ext)) ∧
  role welcome = "assistant" ∧
  (∀ h ss,
     (Tree.run h Tree.never ss).1 = ending_of (run h ss).1 ∧
     Tree.now (Tree.run h Tree.never ss).2 = (run h ss).2).
Proof.
  pose proof (session_writes_chain rs ∅) as C.
  split; [|split; [|split]].
  - intros i s1 s2 H1 H2. apply (chain_step _ _ i s1 s2 C H1 H2).
  - intros i j s1 s2 l Hij H1 H2 E.
    apply (chain_extends _ _ i j s1 s2 C Hij H1 H2 l E).
  - reflexivity.
  - apply tree_run_never.
Qed.

Lemma every_write_appends_witness :
  ∃ ext,
    transcript {[ "messages" := [welcome; Message "user" "first";
                                   Message "user" "second"; Message "assistant" "ab"] ]}
    = Some ([welcome; Message "user" "first"] ++ ext).
Proof.
  apply (proj1 (proj2 (every_write_appends interrupted_then_ok))
           2 4 {[ "messages" := [welcome; Message "user" "first"] ]}).
  - lia.
  - vm_compute. reflexivity.
  - vm_compute. reflexivity.
  - vm_compute. reflexivity.
Defined.

Example interrupted_session_transcripts :
  transcript <$> Tree.session_visits interrupted_then_ok ∅ =
    [None;
     Some [welcome];
     Some [welcome; Message "user" "first"];
     Some [welcome; Message "user" "first"; Message "user" "second"];
     Some [welcome; Message "user" "first"; Message "user" "second";
           Message "assistant" "ab"]].
Proof. vm_compute. reflexivity. Qed.

(** ** How a run ends *)

(** X3. A run of the script ends in one of three ways, and never with an
    exception escaping it.  Streamlit may end it inside an [st.*] call,
    which happens only if a stop or rerun request is pending.  Otherwise
    either startup fails: the run stops, the session state is as before,
    and the log is at least one error message followed by [st.stop()], so
    neither the page header nor the sidebar that the message points to is
    rendered; or startup goes through: the run reaches its end, and its log
    begins with the page header and ends with the sidebar. *)
Theorem run_ends_three_ways (h : host) (irq : list event → bool)
    (ss : gmap string (list message)) :
  ((Tree.run h irq ss).1 = Tree.Interrupted
   ∨
   ((Tree.run h irq ss).1 = Tree.Halted ∧
    (¬ ∃ c, starts h c) ∧
    session_state (Tree.now (Tree.run h irq ss).2) = ss ∧
    ∃ errs, errs ≠ [] ∧
      log (Tree.now (Tree.run h irq ss).2) = (st_error <$> errs) ++ [st_stop])
   ∨
   ((Tree.run h irq ss).1 = Tree.Finished tt ∧
    (∃ c, starts h c) ∧
    ∃ body,
      log (Tree.now (Tree.run h irq ss).2) = header_events ++ body ++ sidebar_events))
  ∧
  ((∀ l, irq l = false) → (Tree.run h irq ss).1 ≠ Tree.Interrupted).
Proof.
  destruct (tree_run_never h ss) as [E S].
  assert (N : (Tree.run h Tree.never ss).1 ≠ Tree.Interrupted).
  { rewrite E. by destruct (run h ss).1. }
  split.
  - destruct (exec_interrupted_or_same irq (Tree.app h) (Tree.World (State ss []) []))
      as [I|Same]; [by left|right].
    unfold Tree.run. rewrite Same.
    fold (Tree.run h Tree.never ss). rewrite E, S.
    destruct (run_cases h ss) as [(O & Hs & St & Hlog)|(O & Hs & Hlog)];
      rewrite O; [left|right]; done.
  - intros Hirq. unfold Tree.run. rewrite (exec_never_runs irq) by done. exact N.
Qed.

(** ** The roles of every transcript a session builds *)

Lemma appends_well_formed s1 s2 : well_formed s1 → appends s1 s2 → well_formed s2.
Proof.
  unfold well_formed, appends. intros H1 Ha l E.
  destruct (transcript s1) as [l1|] eqn:E1.
  - destruct Ha as (m & Hm & E2). rewrite E2 in E. injection E as <-.
    destruct (H1 l1 eq_refl) as [[rest ->] F]. split; [by eexists|].
    apply Forall_app. split; [done|]. by constructor.
  - rewrite Ha in E. injection E as <-. split; [by exists []|].
    constructor; [by right|constructor].
Qed.

Lemma chain_well_formed s l :
  well_formed s → chain s l → Forall well_formed (s :: l).
Proof.
  revert s. induction l as [|x l IH]; intros s Hs C.
  - by constructor.
  - destruct C as [Hx C]. constructor; [done|].
    apply IH; [|done]. by apply (appends_well_formed s).
Qed.

(** The state a session of runs that nothing interrupts ends in. *)
Lemma session_writes_never rs ss :
  Forall (λ r, ∀ l, r.2 l = false) rs →
  default ss (last (Tree.session_writes rs ss)) = session (fst <$> rs) ss.
Proof.
  intros Hrs. revert ss. induction Hrs as [|[h irq] rs Hirq _ IH]; intros ss; [done|].
  simpl in Hirq. cbn [Tree.session_writes fmap list_fmap fst session].
  destruct (grows_app h irq (Tree.World (State ss []) [])) as (new & V & _ & S).
  simpl in V, S. fold (Tree.run h irq ss) in V, S.
  rewrite default_last_app, V, <- S, IH. f_equal.
  unfold Tree.run. rewrite (exec_never_runs irq) by done.
  fold (Tree.run h Tree.never ss). by rewrite (proj2 (tree_run_never h ss)).
Qed.

(** X13. In every state a session goes through, between runs or in the
    middle of one, whatever mix of halted, idle, successful, failed and
    interrupted runs led there, a transcript starts with the welcome turn
    and holds only the roles "user" and "assistant": the filter of the
    history loop never drops a turn of a transcript the script built
    itself.  When no run of the session is interrupted, the transcript at
    the end of the session is the welcome turn followed by user and
    assistant turns in strict alternation. *)
Theorem visited_transcripts_well_formed
    (rs : list (host * (list event → bool))) :
  (∀ i s l,
     Tree.session_visits rs ∅ !! i = Some s → transcript s = Some l →
     (∃ rest, l = welcome :: rest) ∧
     Forall (λ m, role m = "user" ∨ role m = "assistant") l ∧
     (render (State s [])).1 = Ret (wire_of <$> l)) ∧
  (Forall (λ r, ∀ l, r.2 l = false) rs →
   ∀ s l,
     last (Tree.session_visits rs ∅) = Some s → transcript s = Some l →
     ∃ n, role <$> l = "assistant" :: mjoin (replicate n ["user"; "assistant"])).
Proof.
  split.
  - intros i s l Hi E.
    assert (W : well_formed s).
    { eapply Forall_lookup_1; [|exact Hi].
      apply chain_well_formed; [|apply session_writes_chain].
      intros l0 E0. unfold transcript in E0. by rewrite lookup_empty in E0. }
    destruct (W l E) as [Hd F]. split; [done|]. split; [done|].
    rewrite (render_spec _ l) by exact E. simpl. by rewrite rendered_all.
  - intros Hrs s l Hlast E.
    pose proof (session_writes_never rs ∅ Hrs) as End.
    unfold Tree.session_visits in Hlast.
    rewrite last_cons in Hlast.
    assert (Hs : s = session (fst <$> rs) ∅).
    { rewrite <- End. destruct (last (Tree.session_writes rs ∅)); by simplify_eq. }
    subst s. apply (session_alternates (fst <$> rs) ∅); [|exact E].
    intros l0 E0. unfold transcript in E0. by rewrite lookup_empty in E0.
Qed.

Lemma visited_transcripts_well_formed_witness :
  (∃ rest, [welcome; Message "user" "first"; Message "user" "second"] = welcome :: rest) ∧
  Forall (λ m, role m = "user" ∨ role m = "assistant")
    [welcome; Message "user" "first"; Message "user" "second"] ∧
  (render (State {[ "messages" := [welcome; Message "user" "first";
                                     Message "user" "second"] ]} [])).1
    = Ret (wire_of <$> [welcome; Message "user" "first"; Message "user" "second"]).
Proof.
  apply (proj1 (visited_transcripts_well_formed interrupted_then_ok) 3).
  - vm_compute. reflexivity.
  - vm_compute. reflexivity.
Defined.
